(** * Deploy receiver: validation, per-repository lock, runner and dispatcher

    A shallow embedding of [server.js] (the deploy endpoint and its helpers)
    and of the parts of [config.js] it reads, with the properties of the
    deploy execution pipeline proved about the embedding.

    Conventions.
    - A JavaScript string is the list of its UTF-16 code units ([list N]);
      [String.length], [slice] and the regular expressions of the source all
      work on code units.
    - The [Map] of the lock table is a [gmap] from strings to the stored
      value.
    - The asynchronous handler is split at its single [await]: the part
      before it ([deploy_begin]) and the part after it ([deploy_finish]);
      both thread the lock table and append to a log of the effects they
      perform.
    - The body of a request is any parsed JSON document; the conversions
      the handler applies to its fields ([ToString], truthiness,
      [SameValueZero]) are written out, with the exceptions they throw.
    - A run of the script is a sequence of turns of the event loop over a
      clock in milliseconds: the exit of the process, the [close] of its
      pipes and the three timers. *)

From Stdlib Require Import ZArith NArith Lia Ascii String List Bool.
From stdpp Require Import base option list countable gmap strings.

Set Warnings "-register-all".

Local Open Scope N_scope.

(* ===================================================================== *)
(** ** JavaScript strings                                                 *)
(* ===================================================================== *)

Abbreviation jsstring := (list N).

(** Code units of a literal written in ASCII. *)
Definition lit (s : string) : jsstring :=
  map N_of_ascii (list_ascii_of_string s).

Definition cu (c : ascii) : N := N_of_ascii c.

Definition str_eqb (a b : jsstring) : bool := bool_decide (a = b).

(** [!s] for a string [s]: only the empty string is falsy. *)
Definition falsy (s : jsstring) : bool :=
  match s with [] => true | _ => false end.

(** [!v] for a value that is [undefined] or a string. *)
Definition falsy_opt (v : option jsstring) : bool :=
  match v with None => true | Some s => falsy s end.

(** [a || b] on strings. *)
Definition or_else (a b : jsstring) : jsstring :=
  if falsy a then b else a.

(** [s.slice(start)]: a negative [start] counts from the end, and both
    directions are clamped to the string. *)
Definition slice_from (start : Z) (s : jsstring) : jsstring :=
  let len := Z.of_nat (length s) in
  let from := if (start <? 0)%Z then Z.max (len + start) 0
              else Z.min start len in
  drop (Z.to_nat from) s.

(* ===================================================================== *)
(** ** Regular expressions of the validation patterns                     *)
(* ===================================================================== *)

(** The three patterns are sequences of literal text and of bounded
    repetitions of a character class, anchored at both ends. *)
Inductive atom :=
  | Lit (text : jsstring)
  | Class (ranges : list (N * N)) (lo hi : nat).

Abbreviation regex := (list atom).

Definition in_class (ranges : list (N * N)) (c : N) : bool :=
  existsb (fun r => (fst r <=? c) && (c <=? snd r)) ranges.

Fixpoint strip_prefix (p s : jsstring) : option jsstring :=
  match p, s with
  | [], _ => Some s
  | a :: p', b :: s' => if (a =? b) then strip_prefix p' s' else None
  | _ :: _, [] => None
  end.

(** [cls{lo,hi}] followed by the continuation [k]: greedy, with
    backtracking over the number of repetitions. *)
Fixpoint repeat_class (ranges : list (N * N)) (k : jsstring -> bool)
    (lo hi : nat) (s : jsstring) : bool :=
  match hi, s with
  | S hi', c :: s' =>
      if in_class ranges c
      then repeat_class ranges k (pred lo) hi' s' || (Nat.eqb lo 0 && k s)
      else Nat.eqb lo 0 && k s
  | _, _ => Nat.eqb lo 0 && k s
  end.

(** Matching from the current position up to the end anchor [$]. *)
Fixpoint match_here (r : regex) (s : jsstring) : bool :=
  match r with
  | [] => falsy s
  | Lit text :: r' =>
      match strip_prefix text s with
      | Some s' => match_here r' s'
      | None => false
      end
  | Class ranges lo hi :: r' => repeat_class ranges (match_here r') lo hi s
  end.

(** [re.test(s)] for a pattern of the form [^...$]. *)
Definition regex_test (re : regex) (s : jsstring) : bool := match_here re s.

Definition range (a b : ascii) : N * N := (cu a, cu b).
Definition single (a : ascii) : N * N := (cu a, cu a).

(** [[a-zA-Z0-9._-]] *)
Definition slug_class : list (N * N) :=
  [range "a" "z"; range "A" "Z"; range "0" "9";
   single "."; single "_"; single "-"].

(** [[a-z0-9._/-]] *)
Definition image_class : list (N * N) :=
  [range "a" "z"; range "0" "9";
   single "."; single "_"; single "/"; single "-"].

(** [/^[a-zA-Z0-9._-]{1,128}$/] *)
Definition REPO_SLUG_RE : regex := [Class slug_class 1 128].

(** [/^ghcr\.io\/[a-z0-9._/-]{1,256}$/] *)
Definition IMAGE_RE : regex := [Lit (lit "ghcr.io/"); Class image_class 1 256].

(** [/^[a-zA-Z0-9._-]{1,128}$/] *)
Definition TAG_RE : regex := [Class slug_class 1 128].

(** [new Set(["prod", "dev", ""])] *)
Definition ENVS : list jsstring := [lit "prod"; lit "dev"; lit ""].

Definition ENVS_has (e : jsstring) : bool := existsb (str_eqb e) ENVS.

(** The repository-identifier check of the handler:
    [REPO_SLUG_RE.test(repo)]. *)
Definition validateRepositoryId (repo : jsstring) : bool :=
  regex_test REPO_SLUG_RE repo.

Definition validateImageRef (image : jsstring) : bool :=
  regex_test IMAGE_RE image.

Definition validateTag (tag : jsstring) : bool := regex_test TAG_RE tag.

(** Whether [needle] occurs in [s] as a substring. *)
Fixpoint contains (needle s : jsstring) : bool :=
  match strip_prefix needle s with
  | Some _ => true
  | None => match s with [] => false | _ :: s' => contains needle s' end
  end.

(* ===================================================================== *)
(** ** Per-repository deploy lock                                         *)
(* ===================================================================== *)

(** [deployLocks]: a [Map] from repository to the stored marker. *)
Abbreviation lock_table := (gmap (list N) bool).

(** [deployLocks.get(repo)] tested for truthiness. *)
Definition lock_held (repo : jsstring) (locks : lock_table) : bool :=
  match locks !! repo with
  | Some b => b
  | None => false
  end.

Definition acquireLock (repo : jsstring) (locks : lock_table)
    : bool * lock_table :=
  if lock_held repo locks then (false, locks)
  else (true, <[repo := true]> locks).

Definition releaseLock (repo : jsstring) (locks : lock_table) : lock_table :=
  delete repo locks.

(** Every marker the code stores is [true]. *)
Definition markers_true (locks : lock_table) : Prop :=
  ∀ k b, locks !! k = Some b → b = true.

(* ===================================================================== *)
(** ** Tail helper                                                        *)
(* ===================================================================== *)

Definition tail (str : jsstring) (maxChars : Z) : jsstring :=
  if falsy str then []
  else if (Z.of_nat (length str) >? maxChars)%Z
       then slice_from (- maxChars) str
       else str.

(** The last [n] characters of [s]. *)
Definition trailing (n : nat) (s : jsstring) : jsstring :=
  drop (length s - n) s.

(* ===================================================================== *)
(** ** JavaScript values, buffers and the token comparison                *)
(* ===================================================================== *)

(** The values a header or a parsed JSON document can hold.  A number is
    kept as the text [Number.prototype.toString] gives for it: two numbers
    have the same text exactly when [SameValueZero] holds of them ([0] and
    [-0] are both ["0"]), and a number is falsy exactly when its text is
    ["0"] or ["NaN"].  The fields of an object are kept in the order of
    the document; a name that occurs twice has its last value. *)
Inductive jsval :=
  | VUndefined
  | VNull
  | VBool (b : bool)
  | VNumber (text : jsstring)
  | VString (s : jsstring)
  | VArray (items : list jsval)
  | VObject (fields : list (jsstring * jsval)).

Definition typeof (v : jsval) : jsstring :=
  match v with
  | VUndefined => lit "undefined"
  | VNull => lit "object"
  | VBool _ => lit "boolean"
  | VNumber _ => lit "number"
  | VString _ => lit "string"
  | VArray _ => lit "object"
  | VObject _ => lit "object"
  end.

Definition truthy (v : jsval) : bool :=
  match v with
  | VUndefined | VNull => false
  | VBool b => b
  | VNumber text => negb (str_eqb text (lit "0") || str_eqb text (lit "NaN"))
  | VString s => negb (falsy s)
  | VArray _ | VObject _ => true
  end.

(** [a || b] on values. *)
Definition or_val (a b : jsval) : jsval := if truthy a then a else b.

(** [SameValueZero], the comparison of [Array.prototype.includes] and
    [Set.prototype.has]: primitives by value; an array or an object is the
    same as no value that was parsed or written elsewhere. *)
Definition same_value_zero (a b : jsval) : bool :=
  match a, b with
  | VUndefined, VUndefined | VNull, VNull => true
  | VBool x, VBool y => eqb x y
  | VNumber x, VNumber y => str_eqb x y
  | VString x, VString y => str_eqb x y
  | _, _ => false
  end.

(** The own property [name] of a parsed object. *)
Fixpoint own_property (name : jsstring) (fields : list (jsstring * jsval))
    : option jsval :=
  match fields with
  | [] => None
  | (k, v) :: rest =>
      match own_property name rest with
      | Some later => Some later
      | None => if str_eqb k name then Some v else None
      end
  end.

(** [v.name] for one of the names the handler reads, none of which is a
    property of a prototype: [undefined] unless [v] is an object that has
    it. *)
Definition get_field (v : jsval) (name : string) : jsval :=
  match v with
  | VObject fields => default VUndefined (own_property (lit name) fields)
  | _ => VUndefined
  end.

Definition is_high_surrogate (c : N) : bool := (0xD800 <=? c) && (c <=? 0xDBFF).
Definition is_low_surrogate (c : N) : bool := (0xDC00 <=? c) && (c <=? 0xDFFF).

(** U+FFFD in UTF-8, written for a surrogate that has no partner. *)
Definition replacement : list N := [0xEF; 0xBF; 0xBD].

(** [Buffer.from(s)]: the UTF-8 encoding of the string. *)
Fixpoint utf8 (s : jsstring) : list N :=
  match s with
  | [] => []
  | c :: rest =>
      if c <? 0x80 then c :: utf8 rest
      else if c <? 0x800 then
        (0xC0 + c / 64) :: (0x80 + c mod 64) :: utf8 rest
      else if is_high_surrogate c then
        match rest with
        | d :: rest' =>
            if is_low_surrogate d then
              let cp := 0x10000 + (c - 0xD800) * 0x400 + (d - 0xDC00) in
              (0xF0 + cp / 262144) :: (0x80 + (cp / 4096) mod 64)
                :: (0x80 + (cp / 64) mod 64) :: (0x80 + cp mod 64)
                :: utf8 rest'
            else replacement ++ utf8 rest
        | [] => replacement ++ utf8 rest
        end
      else if is_low_surrogate c then replacement ++ utf8 rest
      else
        (0xE0 + c / 4096) :: (0x80 + (c / 64) mod 64) :: (0x80 + c mod 64)
          :: utf8 rest
  end.

(** A string of 16-bit code units in which every surrogate is paired: what
    decoding an HTTP header or a UTF-8 file produces. *)
Fixpoint well_formed (s : jsstring) : bool :=
  match s with
  | [] => true
  | c :: rest =>
      if is_high_surrogate c then
        match rest with
        | d :: rest' => is_low_surrogate d && well_formed rest'
        | [] => false
        end
      else (c <? 0x10000) && negb (is_low_surrogate c) && well_formed rest
  end.

(** Results of code that may throw. *)
Inductive completion (A : Type) :=
  | Normal (a : A)
  | Throws (message : jsstring).
Arguments Normal {A} a.
Arguments Throws {A} message.

(** The byte loop of [crypto.timingSafeEqual]: every pair of bytes is
    combined into the accumulator, whatever the bytes are. *)
Fixpoint byte_diff (a b : list N) (acc : N) : N :=
  match a, b with
  | x :: a', y :: b' => byte_diff a' b' (N.lor acc (N.lxor x y))
  | _, _ => acc
  end.

(** [crypto.timingSafeEqual(bufA, bufB)]: throws on buffers of different
    byte length. *)
Definition crypto_timingSafeEqual (a b : list N) : completion bool :=
  if Nat.eqb (length a) (length b)
  then Normal (byte_diff a b 0 =? 0)
  else Throws (lit "Input buffers must have the same byte length").

Definition timingSafeEqual (a b : jsval) : completion bool :=
  match a, b with
  | VString sa, VString sb =>
      let bufA := utf8 sa in
      let bufB := utf8 sb in
      if negb (Nat.eqb (length bufA) (length bufB)) then Normal false
      else crypto_timingSafeEqual bufA bufB
  | _, _ => Normal false
  end.

(** The message of the [TypeError] for a value that has no primitive. *)
Definition not_primitive : jsstring :=
  lit "Cannot convert object to primitive value".

(** [ToString(v)], the conversion made by [RegExp.prototype.test], by a
    template literal and by [spawn] on the values of [env].  An array is
    joined with commas, [null] and [undefined] elements giving nothing; an
    object is ["[object Object]"], unless it has a property [toString] of
    its own: what a document puts there is not a function, and
    [Object.prototype.valueOf] returns the object, so the conversion
    throws. *)
Fixpoint ToString (v : jsval) : completion jsstring :=
  match v with
  | VUndefined => Normal (lit "undefined")
  | VNull => Normal (lit "null")
  | VBool b => Normal (if b then lit "true" else lit "false")
  | VNumber text => Normal text
  | VString s => Normal s
  | VArray items =>
      (fix join (l : list jsval) : completion jsstring :=
         match l with
         | [] => Normal []
         | x :: l' =>
             match match x with
                   | VUndefined | VNull => Normal []
                   | _ => ToString x
                   end with
             | Throws message => Throws message
             | Normal s =>
                 match l' with
                 | [] => Normal s
                 | _ :: _ =>
                     match join l' with
                     | Normal rest => Normal (s ++ lit "," ++ rest)
                     | Throws message => Throws message
                     end
                 end
             end
         end) items
  | VObject fields =>
      match own_property (lit "toString") fields with
      | Some _ => Throws not_primitive
      | None => Normal (lit "[object Object]")
      end
  end.

(** [re.test(v)]: the pattern is tried on [ToString(v)]. *)
Definition RegExp_test (re : regex) (v : jsval) : completion bool :=
  match ToString v with
  | Normal s => Normal (regex_test re s)
  | Throws message => Throws message
  end.

(** [ENVS.has(v)]: only a string is the same value as a member. *)
Definition ENVS_accepts (v : jsval) : bool :=
  match v with
  | VString e => ENVS_has e
  | _ => false
  end.

(* ===================================================================== *)
(** ** Configuration, requests and responses                              *)
(* ===================================================================== *)

Record secrets := {
  vaultwardenMasterPassword : jsstring;
  ghcrPat : jsstring;
  deployReceiverToken : jsstring;
}.

(** The fields of the object returned by [loadConfig] that the deploy
    endpoint reads.  [allowlist] is [null] ([None]) or the parsed array. *)
Record config := {
  appsRoot : jsstring;
  allowlist : option (list jsval);
  deployTimeoutMs : Z;
  maxOutputChars : Z;
  cfg_secrets : secrets;
}.

(** [parseInt(process.env.X, 10) || DEFAULTS.X], given what [parseInt]
    returned ([None] for [NaN]). *)
Definition int_or_default (parsed : option Z) (dflt : Z) : Z :=
  match parsed with
  | Some n => if (n =? 0)%Z then dflt else n
  | None => dflt
  end.

Definition DEFAULT_DEPLOY_TIMEOUT_MS : Z := 180000.
Definition DEFAULT_MAX_OUTPUT_CHARS : Z := 4000.

(** [allowlist.includes(repo)] *)
Definition includes (items : list jsval) (repo : jsval) : bool :=
  existsb (same_value_zero repo) items.

(** The constants of the destructuring of the body.  The handler checks
    the type of none of them: each is whatever the document holds. *)
Record body := {
  repo : jsval;
  image : jsval;
  tag : jsval;
  environment : jsval;
  deliveryId : jsval;
}.

(** [const { repo, image, tag, environment, deliveryId } = ...] *)
Definition destructure (v : jsval) : body :=
  {| repo := get_field v "repo"; image := get_field v "image";
     tag := get_field v "tag"; environment := get_field v "environment";
     deliveryId := get_field v "deliveryId" |}.

Record request := {
  x_deploy_token : jsval;      (* [req.headers["x-deploy-token"]] *)
  req_body : jsval;            (* [req.body] *)
}.

(** The constants the handler works with: [req.body || {}], destructured. *)
Definition body_of (req : request) : body :=
  destructure (or_val (req_body req) (VObject [])).

(** What [res.status(..).json(..)] sends. *)
Record response := {
  status : Z;
  ok : bool;
  r_repo : option jsval;
  r_image : option jsval;
  r_tag : option jsval;
  output : option jsstring;
  error : option jsstring;
}.

Definition error_response (code : Z) (message : jsstring) : response :=
  {| status := code; ok := false; r_repo := None; r_image := None;
     r_tag := None; output := None; error := Some message |}.

(** The file system and the other services of the host, as far as the
    handler consults them. *)
Record host := {
  path_join : jsstring → jsstring → jsstring;
  fs_exists : jsstring → bool;
  fs_is_directory : jsstring → bool;
  fs_executable : jsstring → bool;
  randomUUID : jsstring;
  (* the message of the [TypeError] of [path.join] for an argument that
     is not a string *)
  path_error : jsval → jsstring;
  (* the message of the [RangeError] of [spawn] for a [timeout] it
     refuses *)
  range_error : Z → jsstring;
}.

Record spawn_call := {
  sp_command : jsstring;
  sp_args : list jsstring;
  sp_cwd : jsstring;
  sp_env : list (jsstring * jsstring);
  sp_timeout : Z;
}.

(** The effects of one request, in the order they happen. *)
Inductive effect :=
  | FsExists (path : jsstring)
  | FsStat (path : jsstring)
  | FsAccess (path : jsstring)
  | LockAcquire (repo : jsstring) (acquired : bool)
  | LockRelease (repo : jsstring)
  | LogStart (reqId repo image tag env : jsstring)
  | LogFinished (reqId : jsstring) (exitCode : option Z)
  | LogError (reqId message : jsstring)
  | Spawn (call : spawn_call).

(** How the promise returned by [runDeploy] settles. *)
Inductive run_outcome :=
  | Resolved (exitCode : option Z) (stdout stderr : jsstring)
  | Rejected (message : jsstring).

(* ===================================================================== *)
(** ** The handler monad: lock table, effect log and early return         *)
(* ===================================================================== *)

Record hstate := {
  locks : lock_table;
  log : list effect;
}.

Inductive step (A : Type) :=
  | Reply (r : response)        (* [return res...json(...)] *)
  | Fault (message : jsstring)  (* an exception nobody catches *)
  | Next (a : A).
Arguments Reply {A} r.
Arguments Fault {A} message.
Arguments Next {A} a.

Definition handler (A : Type) : Type := hstate → step A * hstate.

#[global] Instance handler_ret : MRet handler := λ A a s, (Next a, s).

#[global] Instance handler_bind : MBind handler := λ A B f m s,
  match m s with
  | (Next a, s') => f a s'
  | (Reply r, s') => (Reply r, s')
  | (Fault e, s') => (Fault e, s')
  end.

Definition reply {A} (r : response) : handler A := λ s, (Reply r, s).
Definition fault {A} (message : jsstring) : handler A :=
  λ s, (Fault message, s).

Definition emit (e : effect) : handler unit :=
  λ s, (Next (), {| locks := locks s; log := log s ++ [e] |}).

(** [if (c) return r;] *)
Definition return_if (c : bool) (r : response) : handler unit :=
  if c then reply r else mret ().

(** An expression that may throw, outside any [try]. *)
Definition uncaught {A} (c : completion A) : handler A :=
  match c with
  | Normal a => mret a
  | Throws message => fault message
  end.

Definition existsSync (h : host) (p : jsstring) : handler bool :=
  emit (FsExists p);; mret (fs_exists h p).

Definition statSync_isDirectory (h : host) (p : jsstring) : handler bool :=
  emit (FsStat p);; mret (fs_is_directory h p).

(** [fs.accessSync(p, X_OK)] inside its [try]: whether it returned. *)
Definition accessSync_X_OK (h : host) (p : jsstring) : handler bool :=
  emit (FsAccess p);; mret (fs_executable h p).

Definition acquire (r : jsstring) : handler bool := λ s,
  let '(acquired, locks') := acquireLock r (locks s) in
  (Next acquired,
   {| locks := locks'; log := log s ++ [LockAcquire r acquired] |}).

Definition release (r : jsstring) : handler unit := λ s,
  (Next (),
   {| locks := releaseLock r (locks s); log := log s ++ [LockRelease r] |}).

(* ===================================================================== *)
(** ** The deploy endpoint                                                *)
(* ===================================================================== *)

(** The request as it is carried across the [await]: [repo], a string
    once [path.join] has taken it, [image] and [tag] as the document has
    them, and the text of [reqId]. *)
Record pending := {
  p_repo : jsstring;
  p_image : jsval;
  p_tag : jsval;
  p_reqId : jsstring;
}.

(** [path.join(root, v)]: a [TypeError] unless [v] is a string. *)
Definition path_join_val (h : host) (root : jsstring) (v : jsval)
    : completion (jsstring * jsstring) :=
  match v with
  | VString s => Normal (s, path_join h root s)
  | _ => Throws (path_error h v)
  end.

(** U+2026, the ellipsis of the image error message. *)
Definition ellipsis : jsstring := [0x2026].

(** The options of [spawn("/bin/bash", [deployScript], ...)], with the
    values of [env] as [spawn] writes them, [`${key}=${value}`]. *)
Definition spawn_options (cfg : config) (deployScript repoDir r i t env : jsstring)
    : spawn_call :=
  {| sp_command := lit "/bin/bash";
     sp_args := [deployScript];
     sp_cwd := repoDir;
     sp_env :=
       [(lit "PATH",
         lit "/usr/local/sbin:/usr/local/bin:/usr/sbin:/usr/bin:/sbin:/bin");
        (lit "HOME", repoDir);
        (lit "DEPLOY_REPO", r);
        (lit "DEPLOY_IMAGE", i);
        (lit "DEPLOY_TAG", t);
        (lit "DEPLOY_ENV", env);
        (lit "VAULTWARDEN_MASTER_PASSWORD",
         vaultwardenMasterPassword (cfg_secrets cfg));
        (lit "GHCR_PAT", ghcrPat (cfg_secrets cfg))];
     sp_timeout := deployTimeoutMs cfg |}.

(** [!token || !timingSafeEqual(token, config.secrets.deployReceiverToken)] *)
Definition token_rejected (cfg : config) (token : jsval) : handler bool :=
  if negb (truthy token) then mret true
  else match timingSafeEqual token
               (VString (deployReceiverToken (cfg_secrets cfg))) with
       | Normal equal => mret (negb equal)
       | Throws message => fault message
       end.

(** The handler from its first line up to the [await]: authentication,
    validation, path checks, lock and the launch of the script. *)
Definition deploy_begin (h : host) (cfg : config) (req : request)
    : handler pending :=
  (* --- Auth --- *)
  rejected ← token_rejected cfg (x_deploy_token req);
  return_if rejected (error_response 401 (lit "Unauthorized"));;
  (* --- Parse body --- *)
  let b := body_of req in
  return_if (negb (truthy (repo b)) || negb (truthy (image b))
             || negb (truthy (tag b)))
    (error_response 400 (lit "Missing required fields: repo, image, tag"));;
  (* --- Validate repo slug --- *)
  repo_ok ← uncaught (RegExp_test REPO_SLUG_RE (repo b));
  return_if (negb repo_ok)
    (error_response 400 (lit "Invalid repo slug format"));;
  (* --- Allowlist --- *)
  return_if (match allowlist cfg with
             | Some items => negb (includes items (repo b))
             | None => false
             end)
    (error_response 403 (lit "Repo not in allowlist"));;
  (* --- Validate image --- *)
  image_ok ← uncaught (RegExp_test IMAGE_RE (image b));
  return_if (negb image_ok)
    (error_response 400
       (lit "Invalid image format (must be ghcr.io/" ++ ellipsis ++ lit ")"));;
  (* --- Validate tag --- *)
  tag_ok ← uncaught (RegExp_test TAG_RE (tag b));
  return_if (negb tag_ok)
    (error_response 400 (lit "Invalid tag format"));;
  (* --- Validate environment --- *)
  let env := or_val (environment b) (VString []) in
  return_if (negb (ENVS_accepts env))
    (error_response 400 (lit "Invalid environment value"));;
  (* --- Resolve paths --- *)
  '(r, repoDir) ← uncaught (path_join_val h (appsRoot cfg) (repo b));
  let deployScript := path_join h repoDir (lit "deploy.sh") in
  dir_exists ← existsSync h repoDir;
  is_dir ← (if dir_exists then statSync_isDirectory h repoDir
            else mret false);
  return_if (negb dir_exists || negb is_dir)
    (error_response 404 (lit "Repo directory not found: " ++ repoDir));;
  script_exists ← existsSync h deployScript;
  return_if (negb script_exists)
    (error_response 404 (lit "deploy.sh not found in " ++ repoDir));;
  executable ← accessSync_X_OK h deployScript;
  return_if (negb executable)
    (error_response 500 (lit "deploy.sh is not executable"));;
  (* --- Per-repo lock --- *)
  acquired ← acquire r;
  return_if (negb acquired)
    (error_response 409 (lit "Deploy already in progress for " ++ r));;
  let reqId := or_val (deliveryId b) (VString (randomUUID h)) in
  (* the template literal of the log line, read from left to right *)
  id ← uncaught (ToString reqId);
  i ← uncaught (ToString (image b));
  t ← uncaught (ToString (tag b));
  e ← uncaught (ToString env);
  emit (LogStart id r i t e);;
  (* --- Execute deploy.sh: the synchronous part of runDeploy --- *)
  emit (Spawn (spawn_options cfg deployScript repoDir r i t e));;
  mret {| p_repo := r; p_image := image b; p_tag := tag b; p_reqId := id |}.

(** [result.exitCode === 0] *)
Definition exit_code_is_zero (exitCode : option Z) : bool :=
  match exitCode with
  | Some n => (n =? 0)%Z
  | None => false
  end.

(** The body of the [try] once the promise has settled, and the [catch]. *)
Definition shape_response (cfg : config) (p : pending) (o : run_outcome)
    : handler unit :=
  match o with
  | Resolved exitCode stdout stderr =>
      emit (LogFinished (p_reqId p) exitCode);;
      if exit_code_is_zero exitCode then
        reply {| status := 200; ok := true;
                 r_repo := Some (VString (p_repo p));
                 r_image := Some (p_image p); r_tag := Some (p_tag p);
                 output := Some (tail stdout (maxOutputChars cfg));
                 error := None |}
      else
        reply {| status := 500; ok := false;
                 r_repo := Some (VString (p_repo p));
                 r_image := Some (p_image p); r_tag := Some (p_tag p);
                 output := None;
                 error := Some (tail (or_else stderr stdout)
                                  (maxOutputChars cfg)) |}
  | Rejected message =>
      emit (LogError (p_reqId p) message);;
      reply {| status := 500; ok := false;
               r_repo := Some (VString (p_repo p));
               r_image := Some (p_image p); r_tag := Some (p_tag p);
               output := None; error := Some message |}
  end.

(** [try { ... } finally { cleanup }]: the cleanup runs however the body
    ended, and the body's completion is kept. *)
Definition try_finally {A} (m : handler A) (cleanup : handler unit)
    : handler A := λ s,
  let '(r, s') := m s in (r, snd (cleanup s')).

(** The handler from the settling of the promise to its end. *)
Definition deploy_finish (cfg : config) (p : pending) (o : run_outcome)
    : handler unit :=
  try_finally (shape_response cfg p o) (release (p_repo p)).

(** A request handled with nothing in between: [o] is how the script's
    run settles. *)
Definition deploy (h : host) (cfg : config) (req : request) (o : run_outcome)
    : handler unit :=
  p ← deploy_begin h cfg req; deploy_finish cfg p o.

(* ===================================================================== *)
(** ** runDeploy: the callbacks and the timers                            *)
(* ===================================================================== *)

(** Time is counted in milliseconds from the call of [spawn]. *)

Inductive signal := SIGTERM | SIGKILL.

(** The variables of one call of [runDeploy]: the two buffers, the
    promise, the pending timers (each with the time it is due) and the
    calls of [child.kill] made so far (time, signal, and whether a live
    process received it). *)
Record run_state := {
  rs_stdout : jsstring;
  rs_stderr : jsstring;
  rs_settled : option (Z * run_outcome);
  rs_spawn_timer : option Z;   (* the [timeout] option of [spawn] *)
  rs_timer : option Z;         (* [timer] *)
  rs_kill_timer : option Z;    (* the timer set inside [timer]'s callback *)
  rs_kills : list (Z * signal * bool);
}.

(** The script as the runner sees it: the chunks written to its pipes
    (time, whether on stderr, text), when and with which code it exits if
    left alone, what SIGTERM does to it: nothing ([None]), or an exit
    after a delay, with the code of its handler or, killed by the signal,
    without one; and from when on no process it started holds the pipes
    any more ([None]: one holds them for ever).  The signals go to the
    script alone. *)
Record script := {
  sc_chunks : list (Z * bool * jsstring);
  sc_exit : option (Z * Z);
  sc_on_sigterm : option (Z * option Z);
  sc_pipes_free : option Z;
}.

(** What [spawn] does: it throws, it fails later with an [error] event,
    or the script runs. *)
Inductive child :=
  | SpawnThrows (message : jsstring)
  | SpawnFails (message : jsstring)
  | Runs (sc : script).

(** The process: whether it is alive, when and how it is going to end as
    things stand, and, once it has ended, when [close] is due and with
    which code. *)
Record proc := {
  pr_alive : bool;
  pr_death : option (Z * option Z);
  pr_close : option (Z * option Z);
}.

(** [setTimeout(f, ms)]: a delay outside [1, 2^31 - 1] becomes 1. *)
Definition timer_delay (ms : Z) : Z :=
  if ((ms <? 1) || (ms >? 2147483647))%Z then 1%Z else ms.

Definition with_buffers (out err : jsstring) (st : run_state) : run_state :=
  {| rs_stdout := out; rs_stderr := err; rs_settled := rs_settled st;
     rs_spawn_timer := rs_spawn_timer st; rs_timer := rs_timer st;
     rs_kill_timer := rs_kill_timer st; rs_kills := rs_kills st |}.

Definition with_settled (o : option (Z * run_outcome)) (st : run_state)
    : run_state :=
  {| rs_stdout := rs_stdout st; rs_stderr := rs_stderr st; rs_settled := o;
     rs_spawn_timer := rs_spawn_timer st; rs_timer := rs_timer st;
     rs_kill_timer := rs_kill_timer st; rs_kills := rs_kills st |}.

Definition with_timers (spawn_timer timer kill_timer : option Z)
    (st : run_state) : run_state :=
  {| rs_stdout := rs_stdout st; rs_stderr := rs_stderr st;
     rs_settled := rs_settled st;
     rs_spawn_timer := spawn_timer; rs_timer := timer;
     rs_kill_timer := kill_timer; rs_kills := rs_kills st |}.

Definition with_kill (k : Z * signal * bool) (st : run_state) : run_state :=
  {| rs_stdout := rs_stdout st; rs_stderr := rs_stderr st;
     rs_settled := rs_settled st;
     rs_spawn_timer := rs_spawn_timer st; rs_timer := rs_timer st;
     rs_kill_timer := rs_kill_timer st; rs_kills := rs_kills st ++ [k] |}.

(** [resolve(..)] and [reject(..)]: only the first call settles. *)
Definition settle (now : Z) (o : run_outcome) (st : run_state) : run_state :=
  match rs_settled st with
  | Some _ => st
  | None => with_settled (Some (now, o)) st
  end.

(** [child.stdout.on("data", ...)] and [child.stderr.on("data", ...)] *)
Definition on_data (is_stderr : bool) (data : jsstring) (st : run_state)
    : run_state :=
  if is_stderr then with_buffers (rs_stdout st) (rs_stderr st ++ data) st
  else with_buffers (rs_stdout st ++ data) (rs_stderr st) st.

(** [child.on("error", ...)] *)
Definition on_error (now : Z) (message : jsstring) (st : run_state)
    : run_state :=
  settle now (Rejected message) st.

(** The two [child.on("close", ...)] listeners, in the order they were
    added: resolve, then [clearTimeout(timer)]. *)
Definition on_close (now : Z) (exitCode : option Z) (st : run_state)
    : run_state :=
  let st := settle now (Resolved exitCode (rs_stdout st) (rs_stderr st)) st in
  with_timers (rs_spawn_timer st) None (rs_kill_timer st) st.

Definition sooner (a : option (Z * option Z)) (b : Z * option Z)
    : option (Z * option Z) :=
  match a with
  | Some x => if (fst x <=? fst b)%Z then Some x else Some b
  | None => Some b
  end.

(** [child.kill(sig)]: nothing happens to a process that has ended;
    SIGKILL ends a live one at once, SIGTERM as the script decides. *)
Definition child_kill (sc : script) (now : Z) (sig : signal)
    (w : run_state * proc) : run_state * proc :=
  let '(st, p) := w in
  if pr_alive p then
    (with_kill (now, sig, true) st,
     match sig with
     | SIGKILL =>
         {| pr_alive := true; pr_death := sooner (pr_death p) (now, None);
            pr_close := pr_close p |}
     | SIGTERM =>
         match sc_on_sigterm sc with
         | Some (delay, code) =>
             {| pr_alive := true;
                pr_death := sooner (pr_death p) (now + delay, code)%Z;
                pr_close := pr_close p |}
         | None => p
         end
     end)
  else (with_kill (now, sig, false) st, p).

(** The callback of [timer]: SIGTERM, then the second timer. *)
Definition on_timer (sc : script) (now : Z) (w : run_state * proc)
    : run_state * proc :=
  let '(st, p) := child_kill sc now SIGTERM w in
  (with_timers (rs_spawn_timer st) (rs_timer st)
     (Some (now + timer_delay 5000)%Z) st, p).

(** The callback of the second timer: SIGKILL. *)
Definition on_kill_timer (sc : script) (now : Z) (w : run_state * proc)
    : run_state * proc :=
  child_kill sc now SIGKILL w.

(** What the event loop can run next. *)
Inductive event :=
  | EvExit (exitCode : option Z)
  | EvClose (exitCode : option Z)
  | EvSpawnTimeout
  | EvTimer
  | EvKillTimer.

Definition due {A} (t : option Z) (e : A) : list (Z * A) :=
  match t with
  | Some t => [(t, e)]
  | None => []
  end.

Definition pending_events (w : run_state * proc) : list (Z * event) :=
  let '(st, p) := w in
  (if pr_alive p
   then match pr_death p with
        | Some (t, code) => [(t, EvExit code)]
        | None => []
        end
   else [])
  ++ match pr_close p with
     | Some (t, code) => [(t, EvClose code)]
     | None => []
     end
  ++ due (rs_spawn_timer st) EvSpawnTimeout
  ++ due (rs_timer st) EvTimer
  ++ due (rs_kill_timer st) EvKillTimer.

(** The earliest event; among events due at the same time, the first of
    the list. *)
Fixpoint earliest {A} (l : list (Z * A)) : option (Z * A) :=
  match l with
  | [] => None
  | x :: l' =>
      match earliest l' with
      | Some y => if (fst y <? fst x)%Z then Some y else Some x
      | None => Some x
      end
  end.

Definition deliver_chunks (upto : Z) (chunks : list (Z * bool * jsstring))
    (st : run_state) : run_state :=
  foldl (λ (st : run_state) (c : Z * bool * jsstring),
           if (fst (fst c) <=? upto)%Z
           then on_data (snd (fst c)) (snd c) st else st)
        st chunks.

(** One turn of the event loop.  When the process ends, [exit] is
    emitted, which drops the timer of the [timeout] option; [close]
    follows once the pipes are closed as well, that is when no other
    process holds them.  The data written until then is handed to the
    [data] listeners before [close] (no other callback reads the
    buffers).  The timer of the [timeout] option sends SIGTERM, the
    default [killSignal], when it fires. *)
Definition dispatch (sc : script) (now : Z) (e : event)
    (w : run_state * proc) : run_state * proc :=
  let '(st, p) := w in
  match e with
  | EvExit code =>
      (with_timers None (rs_timer st) (rs_kill_timer st) st,
       {| pr_alive := false; pr_death := None;
          pr_close := match sc_pipes_free sc with
                      | Some free => Some (Z.max now free, code)
                      | None => None
                      end |})
  | EvClose code =>
      let st := deliver_chunks now (sc_chunks sc) st in
      (on_close now code st,
       {| pr_alive := false; pr_death := None; pr_close := None |})
  | EvSpawnTimeout =>
      child_kill sc now SIGTERM
        (with_timers None (rs_timer st) (rs_kill_timer st) st, p)
  | EvTimer =>
      on_timer sc now
        (with_timers (rs_spawn_timer st) None (rs_kill_timer st) st, p)
  | EvKillTimer =>
      on_kill_timer sc now
        (with_timers (rs_spawn_timer st) (rs_timer st) None st, p)
  end.

Fixpoint event_loop (fuel : nat) (sc : script) (w : run_state * proc)
    : run_state * proc :=
  match fuel with
  | O => w
  | S fuel' =>
      match earliest (pending_events w) with
      | Some (now, e) => event_loop fuel' sc (dispatch sc now e w)
      | None => w
      end
  end.

(** [spawn] checks its [timeout] option before anything else: an integer
    from 0 to 2^53 - 1. *)
Definition spawn_refuses (ms : Z) : bool :=
  ((ms <? 0) || (ms >? 9007199254740991))%Z.

(** The variables of [runDeploy] before [spawn] is called. *)
Definition entered : run_state :=
  {| rs_stdout := []; rs_stderr := []; rs_settled := None;
     rs_spawn_timer := None; rs_timer := None;
     rs_kill_timer := None; rs_kills := [] |}.

(** The state right after the synchronous part of [runDeploy], when
    [spawn] has returned: the timer of the [timeout] option, set for a
    timeout above 0, and [timer]. *)
Definition launched (cfg : config) : run_state :=
  let ms := deployTimeoutMs cfg in
  {| rs_stdout := []; rs_stderr := []; rs_settled := None;
     rs_spawn_timer := if (ms >? 0)%Z then Some (timer_delay ms) else None;
     rs_timer := Some (timer_delay ms);
     rs_kill_timer := None; rs_kills := [] |}.

Definition no_script : script :=
  {| sc_chunks := []; sc_exit := None; sc_on_sigterm := None;
     sc_pipes_free := None |}.

Definition no_process : proc :=
  {| pr_alive := false; pr_death := None; pr_close := None |}.

(** At most five events can happen in one run: the exit, the close and
    the three timers. *)
Definition run_fuel : nat := 5.

(** The whole run.  An exception of [spawn] leaves the executor of the
    promise, which rejects it, before any listener or timer is set.  A
    spawn failure is an [error] event followed by [close], with no
    process behind it. *)
Definition run (h : host) (cfg : config) (c : child) : run_state * proc :=
  let thrown message := (settle 0 (Rejected message) entered, no_process) in
  if spawn_refuses (deployTimeoutMs cfg)
  then thrown (range_error h (deployTimeoutMs cfg))
  else
    match c with
    | SpawnThrows message => thrown message
    | SpawnFails message =>
        event_loop run_fuel no_script
          (on_close 0 (Some (-2)%Z) (on_error 0 message (launched cfg)),
           no_process)
    | Runs sc =>
        event_loop run_fuel sc
          (launched cfg,
           {| pr_alive := true;
              pr_death := match sc_exit sc with
                          | Some (t, code) => Some (t, Some code)
                          | None => None
                          end;
              pr_close := None |})
    end.

(** How the promise of [runDeploy] settles, if it does. *)
Definition runDeploy (h : host) (cfg : config) (c : child)
    : option run_outcome :=
  snd <$> rs_settled (fst (run h cfg c)).

(** The signals that reached the live process, by time. *)
Definition signals_sent (st : run_state) : list (Z * signal) :=
  omap (λ k : Z * signal * bool, if snd k then Some (fst k) else None)
       (rs_kills st).

(** A request from its arrival to the end of the handler, with the launch
    going as [c] says.  [None]: the promise of [runDeploy] never settles,
    and the handler stays suspended at its [await].  A [Fault] is an
    exception that leaves the handler, which has sent nothing. *)
Definition serve (h : host) (cfg : config) (req : request) (c : child)
    (s : hstate) : option (step unit * hstate) :=
  match deploy_begin h cfg req s with
  | (Next p, s') =>
      match runDeploy h cfg c with
      | Some o => Some (deploy_finish cfg p o s')
      | None => None
      end
  | (Reply r, s') => Some (Reply r, s')
  | (Fault m, s') => Some (Fault m, s')
  end.

(* ===================================================================== *)
(** ** Vocabulary of the statements                                       *)
(* ===================================================================== *)

(** The characters of [[a-zA-Z0-9._-]], by their code. *)
Definition slug_char (c : N) : Prop :=
  97 <= c <= 122 ∨ 65 <= c <= 90 ∨ 48 <= c <= 57 ∨ c = 46 ∨ c = 95 ∨ c = 45.

(** The property of [tail] at one string and one budget, as the
    specification words it. *)
Definition tail_claim (s : jsstring) (n : Z) : Prop :=
  ((n < Z.of_nat (length s))%Z → tail s n = trailing (Z.to_nat n) s) ∧
  ((Z.of_nat (length s) <= n)%Z → tail s n = s) ∧
  tail (tail s n) n = tail s n.

(** The code point of a surrogate pair. *)
Definition code_point (c d : N) : N :=
  0x10000 + (c - 0xD800) * 0x400 + (d - 0xDC00).

(** The token check of the handler as a plain test. *)
Definition authorized (cfg : config) (token : jsval) : bool :=
  truthy token &&
  match timingSafeEqual token (VString (deployReceiverToken (cfg_secrets cfg))) with
  | Normal equal => equal
  | Throws _ => false
  end.

(** A state with the given lock table and nothing logged yet. *)
Definition fresh (l : lock_table) : hstate := {| locks := l; log := [] |}.

Definition is_release (r : jsstring) (e : effect) : bool :=
  match e with
  | LockRelease r' => str_eqb r' r
  | _ => false
  end.

(** How often the lock of [r] is released in a log. *)
Definition releases (r : jsstring) (l : list effect) : nat :=
  length (filter (λ e, is_release r e = true) l).

(** A token value whose string, if it is one, is well formed. *)
Definition token_well_formed (v : jsval) : bool :=
  match v with
  | VString s => well_formed s
  | _ => true
  end.

(** The first test of [!repo || !image || !tag]. *)
Definition missing_fields (b : body) : bool :=
  negb (truthy (repo b)) || negb (truthy (image b)) || negb (truthy (tag b)).

(** The environment after [environment || ""]. *)
Definition env_of (b : body) : jsval :=
  or_val (environment b) (VString []).

(** A test that returned [true]. *)
Definition holds (c : completion bool) : bool :=
  match c with
  | Normal b => b
  | Throws _ => false
  end.

(** All four syntax checks of a body. *)
Definition syntax_ok (b : body) : bool :=
  holds (RegExp_test REPO_SLUG_RE (repo b))
  && holds (RegExp_test IMAGE_RE (image b))
  && holds (RegExp_test TAG_RE (tag b))
  && ENVS_accepts (env_of b).

(** The allowlist test of the handler. *)
Definition allowlisted (cfg : config) (r : jsval) : bool :=
  match allowlist cfg with
  | Some items => includes items r
  | None => true
  end.

(** The effects that only read the file system. *)
Definition is_fs_check (e : effect) : bool :=
  match e with
  | FsExists _ | FsStat _ | FsAccess _ => true
  | _ => false
  end.

(** Syntax before policy, as the specification orders the checks, at one
    request: a policy denial is only reported when every syntax check has
    passed. *)
Definition syntax_before_policy (h : host) (cfg : config) (req : request)
    (l : lock_table) : Prop :=
  ∀ r s', deploy_begin h cfg req (fresh l) = (Reply r, s') →
          status r = 403%Z → syntax_ok (body_of req) = true.

(** The text written to one stream up to a time. *)
Definition captured (is_stderr : bool) (upto : Z)
    (chunks : list (Z * bool * jsstring)) : jsstring :=
  concat (omap (λ c : Z * bool * jsstring,
                  if (fst (fst c) <=? upto)%Z && eqb (snd (fst c)) is_stderr
                  then Some (snd c) else None) chunks).

(** Whether the script, left alone, has exited by time [t]. *)
Definition exits_by (sc : script) (t : Z) : bool :=
  match sc_exit sc with
  | Some (e, _) => (e <=? t)%Z
  | None => false
  end.

(** Whether SIGTERM ends the script within [grace] milliseconds. *)
Definition heeds_sigterm_within (sc : script) (grace : Z) : bool :=
  match sc_on_sigterm sc with
  | Some (d, _) => (d <=? grace)%Z
  | None => false
  end.

(** Exit times and delays are not negative. *)
Definition times_ok (sc : script) : Prop :=
  (∀ e c, sc_exit sc = Some (e, c) → (0 <= e)%Z) ∧
  (∀ d c, sc_on_sigterm sc = Some (d, c) → (0 <= d)%Z).

(** The script leaves no process behind that holds its pipes: [close]
    comes with the exit. *)
Definition leaves_nothing_behind (sc : script) : Prop :=
  sc_pipes_free sc = Some 0%Z.

(** The timeout ladder at one configuration and one script, as the
    specification words it: a script that has exited by the timeout is
    sent no signal, one that has not is sent SIGTERM at the timeout, and
    the run is never a hang: the promise settles. *)
Definition ladder_claim (h : host) (cfg : config) (sc : script) : Prop :=
  let T := deployTimeoutMs cfg in
  let final := fst (run h cfg (Runs sc)) in
  (exits_by sc T = true → signals_sent final = []) ∧
  (exits_by sc T = false →
   ∃ more, signals_sent final = (T, SIGTERM) :: more) ∧
  is_Some (rs_settled final).


(** The fields of the body that end up in a path, a log line or the
    environment of the script are strings or absent, as the README
    documents the body. *)
Definition is_text (v : jsval) : Prop :=
  v = VUndefined ∨ ∃ s, v = VString s.

Definition fields_are_text (b : body) : Prop :=
  is_text (repo b) ∧ is_text (image b) ∧ is_text (tag b) ∧
  is_text (deliveryId b).

(** *** A small installation, for the examples *)

Definition example_host : host :=
  {| path_join := λ a b, a ++ lit "/" ++ b;
     fs_exists := λ _, true;
     fs_is_directory := λ _, true;
     fs_executable := λ _, true;
     randomUUID := lit "3b241101-e2bb-4255-8caf-4136c566a962";
     path_error := λ _, lit "ERR_INVALID_ARG_TYPE";
     range_error := λ _, lit "ERR_OUT_OF_RANGE" |}.

Definition example_config : config :=
  {| appsRoot := lit "/home/apps";
     allowlist := Some [VString (lit "sporty")];
     deployTimeoutMs := DEFAULT_DEPLOY_TIMEOUT_MS;
     maxOutputChars := DEFAULT_MAX_OUTPUT_CHARS;
     cfg_secrets :=
       {| vaultwardenMasterPassword := lit "vault";
          ghcrPat := lit "pat";
          deployReceiverToken := lit "s3cret" |} |}.

Definition example_body (r i t : string) : jsval :=
  VObject [(lit "repo", VString (lit r)); (lit "image", VString (lit i));
           (lit "tag", VString (lit t));
           (lit "environment", VString (lit "prod"));
           (lit "deliveryId", VString (lit "d-1"))].

Definition example_request (token b : jsval) : request :=
  {| x_deploy_token := token; req_body := b |}.

(** A request for a repository that is not on the allowlist, with an image
    from another registry. *)
Definition unlisted_request : request :=
  example_request (VString (lit "s3cret"))
    (example_body "blitzed" "docker.io/tihlde/blitzed" "latest").

Definition good_request : request :=
  example_request (VString (lit "s3cret"))
    (example_body "sporty" "ghcr.io/tihlde/sporty" "latest").

Definition good_pending : pending :=
  {| p_repo := lit "sporty"; p_image := VString (lit "ghcr.io/tihlde/sporty");
     p_tag := VString (lit "latest"); p_reqId := lit "d-1" |}.

(** The request of [good_request] with a [deliveryId] that cannot be
    converted to a string: the document
    [{"repo": "sporty", "image": "ghcr.io/tihlde/sporty", "tag": "latest",
      "deliveryId": {"toString": 1}}]. *)
Definition wedging_request : request :=
  example_request (VString (lit "s3cret"))
    (VObject [(lit "repo", VString (lit "sporty"));
              (lit "image", VString (lit "ghcr.io/tihlde/sporty"));
              (lit "tag", VString (lit "latest"));
              (lit "deliveryId",
               VObject [(lit "toString", VNumber (lit "1"))])]).

(** A lock table in which a deploy of [sporty] is in flight. *)
Definition busy_locks : lock_table := {[ lit "sporty" := true ]}.

(** The same installation without an allowlist file. *)
Definition open_config : config :=
  {| appsRoot := appsRoot example_config;
     allowlist := None;
     deployTimeoutMs := deployTimeoutMs example_config;
     maxOutputChars := maxOutputChars example_config;
     cfg_secrets := cfg_secrets example_config |}.

Definition dotdot_request : request :=
  example_request (VString (lit "s3cret"))
    (example_body ".." "ghcr.io/tihlde/sporty" "latest").

(** A script that writes one line, never exits and ignores SIGTERM. *)
Definition stubborn_script : script :=
  {| sc_chunks := [(10%Z, false, lit "pulling")];
     sc_exit := None; sc_on_sigterm := None; sc_pipes_free := Some 0%Z |}.

(** A script that exits with code 0 after 600 ms. *)
Definition quick_script : script :=
  {| sc_chunks := []; sc_exit := Some (600%Z, 0%Z);
     sc_on_sigterm := Some (0%Z, None); sc_pipes_free := Some 0%Z |}.

(** A script that puts a process in the background, which keeps the
    pipes, and exits with code 0 after 20 ms. *)
Definition lingering_script : script :=
  {| sc_chunks := [(5%Z, false, lit "started")];
     sc_exit := Some (20%Z, 0%Z); sc_on_sigterm := Some (0%Z, None);
     sc_pipes_free := None |}.

(** The example installation with [DEPLOY_TIMEOUT_MS=2147483648]. *)
Definition wide_config : config :=
  {| appsRoot := lit "/home/apps";
     allowlist := Some [VString (lit "sporty")];
     deployTimeoutMs := 2147483648;
     maxOutputChars := DEFAULT_MAX_OUTPUT_CHARS;
     cfg_secrets :=
       {| vaultwardenMasterPassword := lit "vault";
          ghcrPat := lit "pat";
          deployReceiverToken := lit "s3cret" |} |}.

(** A script that prints OK and exits with code 0 after 20 ms. *)
Definition ok_script : script :=
  {| sc_chunks := [(5%Z, false, lit "OK")];
     sc_exit := Some (20%Z, 0%Z); sc_on_sigterm := Some (0%Z, None);
     sc_pipes_free := Some 0%Z |}.

(* ===================================================================== *)
(** ** Tactics                                                            *)
(* ===================================================================== *)

(** [lia] with quotients and remainders taken as unknown numbers. *)
Ltac hide_div :=
  repeat match goal with
         | H : context [?a / ?b] |- _ =>
             let q := fresh "q" in set (q := a / b) in *; clearbody q
         | H : context [?a mod ?b] |- _ =>
             let r := fresh "r" in set (r := a mod b) in *; clearbody r
         end.

Ltac split_bytes H :=
  repeat (let E := fresh "E" in injection H as E H).

Ltac handler_unfold :=
  unfold deploy_begin, deploy_finish, shape_response, try_finally,
    existsSync, statSync_isDirectory, accessSync_X_OK, acquire, release,
    uncaught, return_if, reply, fault, emit,
    mbind, mret, handler_bind, handler_ret in *.


(** The test that a handler run decides on next: the scrutinee at the
    head of the run. *)
Ltac head_of t :=
  lazymatch t with
  | ToString _ => t
  | (let '(_, _) := ?c in _) => head_of c
  | match ?c with Reply _ => _ | Fault _ => _ | Next _ => _ end => head_of c
  | match ?c with Normal _ => _ | Throws _ => _ end => head_of c
  | (if ?c then _ else _) => c
  | match ?c with Some _ => _ | None => _ end => c
  | match ?c with VString _ => _ | _ => _ end => c
  | ?f _ => head_of f
  end.

(** Case analysis on the next test of the handler run on the left of the
    goal, in the order of evaluation. *)
Ltac next_test :=
  lazymatch goal with
  | |- ?lhs = _ → _ =>
      let c := head_of lhs in
      destruct c eqn:?; cbv beta iota zeta;
      cbn [locks log app negb orb andb]
  end.

(** The handler run on the left of the goal, taken apart into its paths. *)
Ltac handler_paths :=
  handler_unfold;
  unfold acquireLock, fresh, RegExp_test, path_join_val;
  cbv beta iota zeta; cbn [locks log app negb orb andb];
  repeat next_test.

(** The end of a path: what the run returned. *)
Ltac path_end :=
  intros [<- <-]%pair_equal_spec; cbn [locks log].

(** The end of a path that is to be a reply. *)
Ltac reply_end :=
  let E := fresh "E" in
  intros [E <-]%pair_equal_spec; try discriminate E;
  match type of E with
  | Reply ?a = Reply ?b => assert (a = b) as <- by congruence
  end;
  clear E; cbn [locks log].

(** Case analysis on a comparison of two times, pruned by [lia]. *)
Ltac split_time :=
  match goal with
  | |- context [(?a <? ?b)%Z] => destruct (Z.ltb_spec a b); try lia
  | |- context [(?a <=? ?b)%Z] => destruct (Z.leb_spec a b); try lia
  | |- context [(?a >? ?b)%Z] => destruct (Z.gtb_spec a b); try lia
  end.

(** Reduction of the callbacks on an explicit state. *)
Ltac run_eval :=
  cbn [pending_events earliest dispatch
       on_close on_timer on_kill_timer on_error child_kill settle sooner due
       with_buffers with_settled with_timers with_kill
       rs_stdout rs_stderr rs_settled rs_spawn_timer rs_timer rs_kill_timer
       rs_kills pr_alive pr_death pr_close
       sc_exit sc_on_sigterm sc_chunks sc_pipes_free
       fst snd app];
  change (timer_delay 5000) with 5000%Z.

(* ===================================================================== *)
(** ** config.js: credentials and configuration                           *)
(* ===================================================================== *)

(** White space and line terminators, the characters that
    [String.prototype.trim] removes. *)
Definition is_space (c : N) : bool :=
  (c =? 0x09) || (c =? 0x0A) || (c =? 0x0B) || (c =? 0x0C) || (c =? 0x0D)
  || (c =? 0x20) || (c =? 0xA0) || (c =? 0x1680)
  || ((0x2000 <=? c) && (c <=? 0x200A))
  || (c =? 0x2028) || (c =? 0x2029) || (c =? 0x202F) || (c =? 0x205F)
  || (c =? 0x3000) || (c =? 0xFEFF).

Fixpoint trim_start (s : jsstring) : jsstring :=
  match s with
  | c :: s' => if is_space c then trim_start s' else s
  | [] => []
  end.

Definition trim_end (s : jsstring) : jsstring :=
  reverse (trim_start (reverse s)).

(** [s.trim()] *)
Definition trim (s : jsstring) : jsstring := trim_end (trim_start s).

(** What [config.js] asks of the process and of Node: the environment
    variables, the file system (with the [path.join] and [fs.existsSync]
    of the host), [parseInt(v, 10)] ([None] for [NaN]) and [JSON.parse]. *)
Record platform := {
  pf_host : host;
  getenv : jsstring → option jsstring;
  readFileSync : jsstring → completion jsstring;
  parseInt10 : option jsstring → option Z;
  JSON_parse : jsstring → completion jsval;
}.

#[global] Instance completion_ret : MRet completion := λ A a, Normal a.

#[global] Instance completion_bind : MBind completion := λ A B f m,
  match m with
  | Normal a => f a
  | Throws message => Throws message
  end.

(** U+2014, the dash of the first error message. *)
Definition em_dash : jsstring := [0x2014].

Definition credentials_directory_unset : jsstring :=
  lit "CREDENTIALS_DIRECTORY is not set " ++ em_dash
  ++ lit " are you running under the systemd unit with LoadCredential?".

(** [process.env.NAME || dflt] *)
Definition env_or (pf : platform) (name : string) (dflt : jsstring)
    : jsstring :=
  or_else (default [] (getenv pf (lit name))) dflt.

Definition readCredential (pf : platform) (name : jsstring)
    : completion jsstring :=
  let credDir := getenv pf (lit "CREDENTIALS_DIRECTORY") in
  if falsy_opt credDir then Throws credentials_directory_unset
  else
    let filePath := path_join (pf_host pf) (default [] credDir) name in
    if negb (fs_exists (pf_host pf) filePath)
    then Throws (lit "Credential file not found: " ++ filePath)
    else content ← readFileSync pf filePath; mret (trim content).

Definition DEFAULT_PORT : Z := 4040.
Definition DEFAULT_APPS_ROOT : jsstring := lit "/home/apps".
Definition DEFAULT_ALLOWLIST_PATH : jsstring :=
  lit "/etc/deploy-receiver/allowlist.json".

(** What [loadConfig] writes to the console. *)
Inductive notice :=
  | AllowlistLoaded (count : nat) (path : jsstring)
  | AllowlistFailed (message : jsstring)
  | AllowlistMissing (path : jsstring)
  | Fatal (message : jsstring).

(** How the start of the process can go on: with a value, with an
    exception, or with [process.exit(code)]. *)
Inductive boot (A : Type) :=
  | Loaded (a : A)
  | Failed (message : jsstring)
  | Exited (code : Z).
Arguments Loaded {A} a.
Arguments Failed {A} message.
Arguments Exited {A} code.

(** The object [loadConfig] returns: the port, and the fields the deploy
    endpoint reads. *)
Record loaded := {
  ld_port : Z;
  ld_config : config;
}.

(** The [try] block that reads the allowlist: the parsed array, or the
    message of whatever was thrown. *)
Definition read_allowlist (pf : platform) (allowlistPath : jsstring)
    : completion (list jsval) :=
  raw ← readFileSync pf allowlistPath;
  parsed ← JSON_parse pf raw;
  match parsed with
  | VArray items => mret items
  | _ => Throws (lit "Allowlist must be a JSON array of repo slugs")
  end.

Definition loadConfig (pf : platform) : boot loaded * list notice :=
  let port :=
    int_or_default (parseInt10 pf (getenv pf (lit "DEPLOY_RECEIVER_PORT")))
      DEFAULT_PORT in
  let appsRoot := env_or pf "DEPLOY_APPS_ROOT" DEFAULT_APPS_ROOT in
  let allowlistPath :=
    env_or pf "DEPLOY_ALLOWLIST_PATH" DEFAULT_ALLOWLIST_PATH in
  let deployTimeoutMs :=
    int_or_default (parseInt10 pf (getenv pf (lit "DEPLOY_TIMEOUT_MS")))
      DEFAULT_DEPLOY_TIMEOUT_MS in
  let maxOutputChars :=
    int_or_default
      (parseInt10 pf (getenv pf (lit "DEPLOY_MAX_OUTPUT_CHARS")))
      DEFAULT_MAX_OUTPUT_CHARS in
  (* --- Secrets via systemd credentials --- *)
  match readCredential pf (lit "vaultwarden-master-password") with
  | Throws message => (Failed message, [])
  | Normal vaultwardenMasterPassword =>
  match readCredential pf (lit "ghcr-pat") with
  | Throws message => (Failed message, [])
  | Normal ghcrPat =>
  match readCredential pf (lit "deploy-receiver-token") with
  | Throws message => (Failed message, [])
  | Normal deployReceiverToken =>
  (* --- Allowlist --- *)
  let result allowlist :=
    Loaded {| ld_port := port;
              ld_config :=
                {| appsRoot := appsRoot; allowlist := allowlist;
                   deployTimeoutMs := deployTimeoutMs;
                   maxOutputChars := maxOutputChars;
                   cfg_secrets :=
                     {| vaultwardenMasterPassword := vaultwardenMasterPassword;
                        ghcrPat := ghcrPat;
                        deployReceiverToken := deployReceiverToken |} |} |} in
  if fs_exists (pf_host pf) allowlistPath then
    match read_allowlist pf allowlistPath with
    | Normal items =>
        (result (Some items), [AllowlistLoaded (length items) allowlistPath])
    | Throws message => (Exited 1, [AllowlistFailed message])
    end
  else (result None, [AllowlistMissing allowlistPath])
  end end end.

(** The start of [server.js]: [loadConfig] inside its [try]. *)
Definition boot_server (pf : platform) : boot loaded * list notice :=
  match loadConfig pf with
  | (Failed message, notices) => (Exited 1, notices ++ [Fatal message])
  | other => other
  end.

(* ===================================================================== *)
(** ** Requests in flight together                                        *)
(* ===================================================================== *)

(** The process between two turns of the event loop: the lock table and
    the requests that are waiting for their script. *)
Record server := {
  sv_locks : lock_table;
  sv_waiting : list pending;
}.

(** What a turn can be: a request arrives and runs up to its [await] (on
    the file system as it is then), or the script of the [i]-th waiting
    request settles and the request runs to its end. *)
Inductive turn_of :=
  | Arrives (h : host) (req : request)
  | Settles (i : nat) (o : run_outcome).

Definition server_turn (cfg : config) (sv : server) (t : turn_of) : server :=
  match t with
  | Arrives h req =>
      match deploy_begin h cfg req (fresh (sv_locks sv)) with
      | (Next p, s) =>
          {| sv_locks := locks s; sv_waiting := sv_waiting sv ++ [p] |}
      | (_, s) => {| sv_locks := locks s; sv_waiting := sv_waiting sv |}
      end
  | Settles i o =>
      match sv_waiting sv !! i with
      | Some p =>
          {| sv_locks :=
               locks (snd (deploy_finish cfg p o (fresh (sv_locks sv))));
             sv_waiting := delete i (sv_waiting sv) |}
      | None => sv
      end
  end.

Definition server_start : server := {| sv_locks := ∅; sv_waiting := [] |}.

Definition server_run (cfg : config) (turns : list turn_of) : server :=
  foldl (server_turn cfg) server_start turns.

(* ===================================================================== *)
(** ** Vocabulary of the further statements                               *)
(* ===================================================================== *)

(** The characters of [[a-z0-9._/-]], by their code. *)
Definition image_char (c : N) : Prop :=
  97 <= c <= 122 ∨ 48 <= c <= 57 ∨ c = 46 ∨ c = 95 ∨ c = 47 ∨ c = 45.

(** The names of the variables handed to the script. *)
Definition script_variables : list jsstring :=
  [lit "PATH"; lit "HOME"; lit "DEPLOY_REPO"; lit "DEPLOY_IMAGE";
   lit "DEPLOY_TAG"; lit "DEPLOY_ENV"; lit "VAULTWARDEN_MASTER_PASSWORD";
   lit "GHCR_PAT"].

(** A request that passes authentication and the whole validation. *)
Definition passes_validation (cfg : config) (req : request) : bool :=
  authorized cfg (x_deploy_token req)
  && negb (missing_fields (body_of req))
  && syntax_ok (body_of req)
  && allowlisted cfg (repo (body_of req)).

(** Two configurations that differ at most in the secrets meant for the
    script. *)
Definition same_but_script_secrets (c1 c2 : config) : Prop :=
  appsRoot c1 = appsRoot c2 ∧ allowlist c1 = allowlist c2 ∧
  deployTimeoutMs c1 = deployTimeoutMs c2 ∧
  maxOutputChars c1 = maxOutputChars c2 ∧
  deployReceiverToken (cfg_secrets c1) = deployReceiverToken (cfg_secrets c2).

Definition is_script_secret (name : jsstring) : bool :=
  str_eqb name (lit "VAULTWARDEN_MASTER_PASSWORD")
  || str_eqb name (lit "GHCR_PAT").

(** An effect without the two secrets in the environment of a launch. *)
Definition redact (e : effect) : effect :=
  match e with
  | Spawn call =>
      Spawn {| sp_command := sp_command call; sp_args := sp_args call;
               sp_cwd := sp_cwd call;
               sp_env := filter (λ kv, is_script_secret (fst kv) = false)
                           (sp_env call);
               sp_timeout := sp_timeout call |}
  | other => other
  end.

(** The repositories of the waiting requests are pairwise different, and
    they are exactly the entries of the lock table. *)
Definition server_ok (sv : server) : Prop :=
  NoDup (p_repo <$> sv_waiting sv) ∧
  ∀ r, sv_locks sv !! r
       = if decide (r ∈ p_repo <$> sv_waiting sv) then Some true else None.

(** The repositories of the waiting requests are pairwise different, and
    each of them is locked. *)
Definition server_safe (sv : server) : Prop :=
  NoDup (p_repo <$> sv_waiting sv) ∧
  ∀ r, r ∈ p_repo <$> sv_waiting sv → sv_locks sv !! r = Some true.

(** A turn in which the log line of the handler does not throw. *)
Definition calm (t : turn_of) : Prop :=
  match t with
  | Arrives h req =>
      ∀ message,
        ToString (or_val (deliveryId (body_of req)) (VString (randomUUID h)))
        ≠ Throws message
  | Settles _ _ => True
  end.

(** A string that neither starts nor ends with white space. *)
Definition trimmed (s : jsstring) : Prop :=
  match head s with Some c => is_space c = false | None => True end ∧
  match last s with Some c => is_space c = false | None => True end.

(** The path [readCredential] reads, when the directory is configured. *)
Definition credential_path (pf : platform) (name : jsstring) : jsstring :=
  path_join (pf_host pf)
    (default [] (getenv pf (lit "CREDENTIALS_DIRECTORY"))) name.

(** Where [loadConfig] looks for the allowlist. *)
Definition allowlist_path (pf : platform) : jsstring :=
  env_or pf "DEPLOY_ALLOWLIST_PATH" DEFAULT_ALLOWLIST_PATH.

(** A systemd-like platform: every credential file holds the same line,
    the allowlist file holds one repository, no variable but the
    credentials directory is set. *)
Definition example_platform : platform :=
  {| pf_host := example_host;
     getenv := λ name, if str_eqb name (lit "CREDENTIALS_DIRECTORY")
                       then Some (lit "/run/credentials") else None;
     readFileSync := λ _, Normal (lit "s3cret" ++ [0x0A]);
     parseInt10 := λ _, None;
     JSON_parse := λ _, Normal (VArray [VString (lit "sporty")]) |}.

(** The same platform with blank credential files. *)
Definition blank_platform : platform :=
  {| pf_host := pf_host example_platform;
     getenv := getenv example_platform;
     readFileSync := λ _, Normal (lit "  " ++ [0x0A]);
     parseInt10 := parseInt10 example_platform;
     JSON_parse := JSON_parse example_platform |}.

(** The same platform with an allowlist that is an object. *)
Definition object_platform : platform :=
  {| pf_host := pf_host example_platform;
     getenv := getenv example_platform;
     readFileSync := readFileSync example_platform;
     parseInt10 := parseInt10 example_platform;
     JSON_parse := λ _, Normal (VObject []) |}.

(** A host on which nothing exists. *)
Definition bare_host : host :=
  {| path_join := path_join example_host;
     fs_exists := λ _, false;
     fs_is_directory := λ _, false;
     fs_executable := λ _, false;
     randomUUID := randomUUID example_host;
     path_error := path_error example_host;
     range_error := range_error example_host |}.

(** The example installation with an allowlist file that holds [[]]. *)
Definition closed_config : config :=
  {| appsRoot := appsRoot example_config;
     allowlist := Some [];
     deployTimeoutMs := deployTimeoutMs example_config;
     maxOutputChars := maxOutputChars example_config;
     cfg_secrets := cfg_secrets example_config |}.

(** The example installation with an empty token. *)
Definition tokenless_config : config :=
  {| appsRoot := appsRoot example_config;
     allowlist := allowlist example_config;
     deployTimeoutMs := deployTimeoutMs example_config;
     maxOutputChars := maxOutputChars example_config;
     cfg_secrets :=
       {| vaultwardenMasterPassword := lit "vault";
          ghcrPat := lit "pat";
          deployReceiverToken := [] |} |}.

(** The example installation with other secrets for the script. *)
Definition rotated_config : config :=
  {| appsRoot := appsRoot example_config;
     allowlist := allowlist example_config;
     deployTimeoutMs := deployTimeoutMs example_config;
     maxOutputChars := maxOutputChars example_config;
     cfg_secrets :=
       {| vaultwardenMasterPassword := lit "another";
          ghcrPat := lit "one";
          deployReceiverToken := lit "s3cret" |} |}.

(** A script that stops 200 ms after SIGTERM, with exit code 0. *)
Definition graceful_script : script :=
  {| sc_chunks := [(10%Z, false, lit "stopping")];
     sc_exit := None; sc_on_sigterm := Some (200%Z, Some 0%Z);
     sc_pipes_free := Some 0%Z |}.

(** Membership in an explicit log that has no such entry. *)
Ltac not_in_log H :=
  repeat (apply elem_of_cons in H as [H|H]; [discriminate|]);
  apply elem_of_nil in H; contradiction.

(** Case analysis on the next test, when both sides of the goal run the
    same handler. *)
Ltac both_sides :=
  lazymatch goal with
  | |- fst ?run = _ ∧ _ =>
      let c := head_of run in
      destruct c eqn:?; cbv beta iota zeta;
      cbn [locks log app negb orb andb fst snd]
  end.

(* ===================================================================== *)
(** * Properties                                                          *)
(* ===================================================================== *)

(** ** Validation patterns *)

Example slug_examples :
  validateRepositoryId (lit "sporty") = true ∧
  validateRepositoryId (lit "tihlde.org_v2-beta") = true ∧
  validateRepositoryId (lit "") = false ∧
  validateRepositoryId (lit "a/b") = false ∧
  validateRepositoryId (lit "a b") = false ∧
  validateRepositoryId (replicate 128 (cu "a")) = true ∧
  validateRepositoryId (replicate 129 (cu "a")) = false.
Proof. repeat split; vm_compute; reflexivity. Qed.

Example image_examples :
  validateImageRef (lit "ghcr.io/tihlde/sporty") = true ∧
  validateImageRef (lit "ghcr.io/") = false ∧
  validateImageRef (lit "ghcr.io/TIHLDE/sporty") = false ∧
  validateImageRef (lit "docker.io/tihlde/sporty") = false ∧
  validateImageRef (lit "ghcrXio/tihlde/sporty") = false.
Proof. repeat split; vm_compute; reflexivity. Qed.

Lemma in_slug_class c : in_class slug_class c = true ↔ slug_char c.
Proof.
  unfold in_class, slug_class, slug_char, range, single, cu; simpl.
  rewrite !orb_true_iff, !andb_true_iff, !N.leb_le. lia.
Qed.

(** A bounded repetition that must reach the end of the string. *)
Lemma repeat_class_to_end ranges hi : ∀ lo s,
  repeat_class ranges falsy lo hi s = true ↔
  (lo ≤ length s ≤ hi)%nat ∧ forallb (in_class ranges) s = true.
Proof.
  induction hi as [|hi IH]; intros lo s.
  - destruct s as [|c s]; simpl; rewrite andb_true_iff, Nat.eqb_eq.
    + intuition lia.
    + split; [intros [_ ?]; discriminate | lia].
  - destruct s as [|c s]; simpl.
    + rewrite andb_true_iff, Nat.eqb_eq. intuition lia.
    + destruct (in_class ranges c); simpl.
      * rewrite andb_false_r, orb_false_r, IH. intuition lia.
      * rewrite andb_false_r.
        split; [discriminate | intros [_ ?]; discriminate].
Qed.

(** The repository identifiers the pattern accepts are exactly the strings
    of 1 to 128 characters of the class. *)
Lemma validateRepositoryId_spec s :
  validateRepositoryId s = true ↔
  (1 ≤ length s ≤ 128)%nat ∧ Forall slug_char s.
Proof.
  unfold validateRepositoryId, regex_test, REPO_SLUG_RE.
  change (match_here [Class slug_class 1 128] s)
    with (repeat_class slug_class falsy 1 128 s).
  rewrite repeat_class_to_end, forallb_forall, Forall_forall.
  split; intros [Hlen Hall]; split; auto; intros c Hc.
  - apply in_slug_class, Hall. by apply list_elem_of_In.
  - apply in_slug_class, Hall. by apply list_elem_of_In.
Qed.

Lemma contains_elem c s :
  contains [c] s = true ↔ c ∈ s.
Proof.
  induction s as [|d s IH]; simpl.
  - split; [discriminate | by intros ?%elem_of_nil].
  - destruct (N.eqb_spec c d) as [->|Hne]; simpl.
    + split; [intros _; left | done].
    + rewrite IH, elem_of_cons.
      split; [auto | intros [?|?]; [congruence | done]].
Qed.

(** What the pattern does reject: the empty string, a string of more than
    128 characters, and a string with a slash or any other character out
    of the class. *)
Lemma validateRepositoryId_rejects s :
  s = [] ∨ (128 < length s)%nat ∨ contains (lit "/") s = true
    ∨ Exists (λ c, ¬ slug_char c) s →
  validateRepositoryId s = false.
Proof.
  intros H. apply not_true_iff_false. rewrite validateRepositoryId_spec.
  intros [Hlen Hall]. destruct H as [->|[H|[H|H]]].
  - simpl in Hlen. lia.
  - lia.
  - change (lit "/") with [47] in H. apply contains_elem in H.
    rewrite Forall_forall in Hall. apply Hall in H.
    unfold slug_char in H. lia.
  - apply Exists_exists in H as (c & Hc & Hn).
    rewrite Forall_forall in Hall. auto.
Qed.

(** C1, at the input where the code departs from it: the string [..] is
    made of characters of the class and has length 2, so the pattern
    accepts it, although it is the parent-directory path component that
    the specification and the security checklist of the README say is
    rejected.  Without an allowlist the request then passes every later
    check and the script found under [path.join(appsRoot, "..")] is
    launched. *)
Theorem validateRepositoryId_accepts_dotdot :
  contains (lit "..") (lit "..") = true ∧
  validateRepositoryId (lit "..") = true ∧
  ∃ p s call,
    deploy_begin example_host open_config dotdot_request (fresh ∅)
    = (Next p, s) ∧
    p_repo p = lit ".." ∧
    last (log s) = Some (Spawn call) ∧
    sp_cwd call = path_join example_host (lit "/home/apps") (lit "..").
Proof.
  split; [vm_compute; reflexivity|]. split; [vm_compute; reflexivity|].
  exists {| p_repo := lit "..";
            p_image := VString (lit "ghcr.io/tihlde/sporty");
            p_tag := VString (lit "latest"); p_reqId := lit "d-1" |},
         (snd (deploy_begin example_host open_config dotdot_request
                 (fresh ∅))),
         (spawn_options open_config (lit "/home/apps/../deploy.sh")
            (lit "/home/apps/..") (lit "..") (lit "ghcr.io/tihlde/sporty")
            (lit "latest") (lit "prod")).
  repeat split; reflexivity.
Qed.

(** ** Tail helper *)

Example tail_examples :
  tail (lit "deploy") 3 = lit "loy" ∧
  tail (lit "deploy") 6 = lit "deploy" ∧
  tail (lit "deploy") 10 = lit "deploy" ∧
  tail (lit "") 3 = lit "" ∧
  tail (lit "deploy") 0 = lit "deploy" ∧
  tail (lit "deploy") (-2) = lit "ploy".
Proof. repeat split; vm_compute; reflexivity. Qed.

Lemma tail_within s n :
  (Z.of_nat (length s) <= n)%Z → tail s n = s.
Proof.
  intros H. unfold tail. destruct s as [|c s]; [done|].
  cbn [falsy]. destruct (Z.gtb_spec (Z.of_nat (length (c :: s))) n); [lia|done].
Qed.

Lemma tail_beyond s n :
  (1 <= n < Z.of_nat (length s))%Z →
  tail s n = trailing (Z.to_nat n) s ∧ length (tail s n) = Z.to_nat n.
Proof.
  intros H. unfold tail, slice_from, trailing.
  destruct s as [|c s]; [simpl in H; lia|].
  cbn [falsy]. set (l := c :: s) in *.
  destruct (Z.gtb_spec (Z.of_nat (length l)) n); [|lia].
  destruct (Z.ltb_spec (- n) 0); [|lia].
  replace (Z.to_nat (Z.max (Z.of_nat (length l) + - n) 0))
    with (length l - Z.to_nat n)%nat by lia.
  split; [done|]. rewrite length_drop. lia.
Qed.


(** With a budget of 0 the slice is [str.slice(-0)], the whole string and
    not its last 0 characters; with a negative budget, which
    [DEPLOY_MAX_OUTPUT_CHARS=-5] configures, [tail] drops characters at
    the front instead and is not idempotent. *)
Lemma tail_claim_fails_at_zero :
  ¬ tail_claim (lit "a") 0 ∧ ¬ tail_claim (lit "abcdefgh") (-5).
Proof.
  split.
  - intros [H _]. specialize (H ltac:(simpl; lia)). discriminate H.
  - intros (_ & _ & H). discriminate H.
Qed.

(** [parseInt(..) || default] never yields 0, so the configured budget is
    never 0. *)
Lemma int_or_default_nonzero parsed dflt :
  dflt ≠ 0%Z → int_or_default parsed dflt ≠ 0%Z.
Proof.
  intros H. unfold int_or_default. destruct parsed as [n|]; [|done].
  destruct (Z.eqb_spec n 0); done.
Qed.

(** C8, for budgets of at least 1: a longer string is cut to its
    last [n] characters, a string within the budget is returned as it is,
    and applying [tail] twice is the same as applying it once. *)
Theorem tail_spec s n :
  (1 <= n)%Z →
  ((n < Z.of_nat (length s))%Z →
     tail s n = trailing (Z.to_nat n) s ∧ length (tail s n) = Z.to_nat n) ∧
  ((Z.of_nat (length s) <= n)%Z → tail s n = s) ∧
  tail (tail s n) n = tail s n.
Proof.
  intros Hn. split; [|split].
  - intros H. apply tail_beyond. lia.
  - apply tail_within.
  - destruct (Z.lt_ge_cases n (Z.of_nat (length s))) as [H|H].
    + apply tail_within. destruct (tail_beyond s n) as [_ ->]; lia.
    + by rewrite !(tail_within s n) by lia.
Qed.

Lemma tail_spec_witness :
  (1 <= 3)%Z ∧ tail (lit "deploy") 3 = lit "loy" ∧
  tail (tail (lit "deploy") 3) 3 = tail (lit "deploy") 3.
Proof.
  split; [lia|].
  destruct (tail_spec (lit "deploy") 3 ltac:(lia)) as (H1 & _ & H3).
  split; [|exact H3].
  destruct (H1 ltac:(simpl; lia)) as [-> _]. reflexivity.
Defined.

(** ** Lock table *)

Lemma markers_true_empty : markers_true ∅.
Proof. intros k b H. by rewrite lookup_empty in H. Qed.

Lemma markers_true_acquire (r : jsstring) (locks : lock_table) :
  markers_true locks → markers_true (snd (acquireLock r locks)).
Proof.
  intros H. unfold acquireLock. destruct (lock_held r locks); simpl; [done|].
  intros k b. rewrite lookup_insert. case_decide; [congruence | apply H].
Qed.

Lemma markers_true_release (r : jsstring) (locks : lock_table) :
  markers_true locks → markers_true (releaseLock r locks).
Proof.
  intros H k b. unfold releaseLock. rewrite lookup_delete.
  case_decide; [done | apply H].
Qed.

Lemma lock_held_present (r : jsstring) (locks : lock_table) :
  markers_true locks → is_Some (locks !! r) → lock_held r locks = true.
Proof.
  intros H [b Hb]. unfold lock_held. rewrite Hb. by apply (H r).
Qed.

Lemma lock_held_absent (r : jsstring) (locks : lock_table) :
  locks !! r = None → lock_held r locks = false.
Proof. intros H. unfold lock_held. by rewrite H. Qed.

(** C6: on a table as the code builds it, [acquireLock] inserts the marker
    and returns [true] when the repository has no entry, and returns
    [false] leaving the table as it is when it has one; [releaseLock]
    removes the entry and nothing else, is a no-op on a repository that is
    not locked and so idempotent; after it, [acquireLock] succeeds. *)
Theorem lock_table_spec (r : jsstring) (locks : lock_table) :
  markers_true locks →
  (locks !! r = None →
     acquireLock r locks = (true, <[r := true]> locks)) ∧
  (is_Some (locks !! r) → acquireLock r locks = (false, locks)) ∧
  releaseLock r locks !! r = None ∧
  (∀ k, k ≠ r → releaseLock r locks !! k = locks !! k) ∧
  (locks !! r = None → releaseLock r locks = locks) ∧
  releaseLock r (releaseLock r locks) = releaseLock r locks ∧
  fst (acquireLock r (releaseLock r locks)) = true.
Proof.
  intros Hinv. unfold acquireLock, releaseLock. repeat split.
  - intros H. by rewrite lock_held_absent.
  - intros H. by rewrite lock_held_present.
  - apply lookup_delete_eq.
  - intros k Hk. by apply lookup_delete_ne.
  - apply delete_id.
  - apply delete_id, lookup_delete_eq.
  - rewrite lock_held_absent; [done | apply lookup_delete_eq].
Qed.

Lemma lock_table_spec_witness :
  let locks : lock_table := {[ lit "sporty" := true ]} in
  markers_true locks ∧
  acquireLock (lit "sporty") locks = (false, locks) ∧
  fst (acquireLock (lit "sporty") (releaseLock (lit "sporty") locks)) = true.
Proof.
  intros locks.
  assert (Hinv : markers_true locks).
  { intros k b. unfold locks. rewrite lookup_singleton.
    case_decide; congruence. }
  split; [exact Hinv|].
  destruct (lock_table_spec (lit "sporty") locks Hinv)
    as (_ & H2 & _ & _ & _ & _ & H7).
  split; [|exact H7].
  apply H2. unfold locks. rewrite lookup_singleton_eq. by eexists.
Defined.

(** ** UTF-8 encoding and the token comparison *)

Example utf8_examples :
  utf8 (lit "ok") = [0x6F; 0x6B] ∧
  utf8 [0xE9] = [0xC3; 0xA9] ∧
  utf8 [0x20AC] = [0xE2; 0x82; 0xAC] ∧
  utf8 [0xD83D; 0xDE00] = [0xF0; 0x9F; 0x98; 0x80] ∧
  utf8 [0xD800] = replacement ∧
  utf8 [0xDC00; 0x41] = replacement ++ [0x41].
Proof. repeat split; vm_compute; reflexivity. Qed.

(** Two different strings can have the same bytes when a surrogate stands
    alone, and the comparison then finds them equal: the reason why the
    statements below are about well-formed strings. *)
Example lone_surrogates_compare_equal :
  timingSafeEqual (VString [0xD800]) (VString [0xDC00]) = Normal true.
Proof. vm_compute. reflexivity. Qed.

Lemma surrogate_bounds c :
  (is_high_surrogate c = true ↔ 0xD800 <= c <= 0xDBFF) ∧
  (is_low_surrogate c = true ↔ 0xDC00 <= c <= 0xDFFF).
Proof.
  unfold is_high_surrogate, is_low_surrogate.
  rewrite !andb_true_iff, !N.leb_le. done.
Qed.

Lemma div_mod_eq (c d k : N) :
  k ≠ 0 → c / k = d / k → c mod k = d mod k → c = d.
Proof.
  intros Hk Hq Hr.
  rewrite (N.div_mod c k), (N.div_mod d k) by done. congruence.
Qed.

Lemma two_bytes_eq c d :
  0xC0 + c / 64 = 0xC0 + d / 64 → 0x80 + c mod 64 = 0x80 + d mod 64 → c = d.
Proof. intros H1 H2. apply (div_mod_eq c d 64); lia. Qed.

Lemma three_bytes_eq c d :
  0xE0 + c / 4096 = 0xE0 + d / 4096 →
  0x80 + (c / 64) mod 64 = 0x80 + (d / 64) mod 64 →
  0x80 + c mod 64 = 0x80 + d mod 64 → c = d.
Proof.
  intros H1 H2 H3. apply (div_mod_eq c d 64); [lia| |lia].
  apply (div_mod_eq _ _ 64); [lia| |lia].
  rewrite !N.Div0.div_div. change (64 * 64) with 4096. lia.
Qed.

Lemma four_bytes_eq c d :
  0xF0 + c / 262144 = 0xF0 + d / 262144 →
  0x80 + (c / 4096) mod 64 = 0x80 + (d / 4096) mod 64 →
  0x80 + (c / 64) mod 64 = 0x80 + (d / 64) mod 64 →
  0x80 + c mod 64 = 0x80 + d mod 64 → c = d.
Proof.
  intros H1 H2 H3 H4. apply (div_mod_eq c d 64); [lia| |lia].
  apply (div_mod_eq _ _ 64); [lia| |lia].
  rewrite !N.Div0.div_div. change (64 * 64) with 4096.
  apply (div_mod_eq _ _ 64); [lia| |lia].
  rewrite !N.Div0.div_div. change (4096 * 64) with 262144. lia.
Qed.

Lemma code_point_eq c c2 d d2 :
  0xD800 <= c <= 0xDBFF → 0xDC00 <= c2 <= 0xDFFF →
  0xD800 <= d <= 0xDBFF → 0xDC00 <= d2 <= 0xDFFF →
  code_point c c2 = code_point d d2 → c = d ∧ c2 = d2.
Proof. unfold code_point. lia. Qed.

(** The shapes of the first character of a well-formed string, each with
    the range of the first byte written for it. *)
Lemma utf8_head c rest :
  well_formed (c :: rest) = true →
  (c < 0x80 ∧ well_formed rest = true ∧ utf8 (c :: rest) = c :: utf8 rest) ∨
  (c / 64 < 32 ∧ well_formed rest = true ∧
   utf8 (c :: rest) = (0xC0 + c / 64) :: (0x80 + c mod 64) :: utf8 rest) ∨
  (c / 4096 < 16 ∧ well_formed rest = true ∧
   utf8 (c :: rest) =
     (0xE0 + c / 4096) :: (0x80 + (c / 64) mod 64) :: (0x80 + c mod 64)
       :: utf8 rest) ∨
  (∃ d rest', rest = d :: rest' ∧ 0xD800 <= c <= 0xDBFF ∧
     0xDC00 <= d <= 0xDFFF ∧ well_formed rest' = true ∧
     utf8 (c :: rest) =
       (0xF0 + code_point c d / 262144)
         :: (0x80 + (code_point c d / 4096) mod 64)
         :: (0x80 + (code_point c d / 64) mod 64)
         :: (0x80 + code_point c d mod 64) :: utf8 rest').
Proof.
  cbn [well_formed utf8].
  destruct (is_high_surrogate c) eqn:Hh.
  - apply surrogate_bounds in Hh.
    destruct rest as [|d rest']; [discriminate|].
    intros [Hl Hw]%andb_true_iff. rewrite Hl.
    apply surrogate_bounds in Hl.
    destruct (N.ltb_spec c 0x80); [lia|].
    destruct (N.ltb_spec c 0x800); [lia|].
    right; right; right. exists d, rest'. done.
  - intros [[Hc Hl]%andb_true_iff Hw]%andb_true_iff.
    apply N.ltb_lt in Hc. apply negb_true_iff in Hl. rewrite Hl.
    destruct (N.ltb_spec c 0x80); [by left|].
    destruct (N.ltb_spec c 0x800).
    + right; left. split; [|done]. apply N.Div0.div_lt_upper_bound. lia.
    + right; right; left. split; [|done].
      apply N.Div0.div_lt_upper_bound. lia.
Qed.

(** A header value, decoded one byte to one character, is well formed. *)
Lemma latin1_well_formed s :
  Forall (λ c, c < 256) s → well_formed s = true.
Proof.
  induction 1 as [|c s Hc _ IH]; [done|]. cbn [well_formed].
  unfold is_high_surrogate, is_low_surrogate.
  destruct (N.leb_spec 0xD800 c); [lia|].
  destruct (N.leb_spec 0xDC00 c); [lia|].
  destruct (N.ltb_spec c 0x10000); [|lia]. exact IH.
Qed.

Lemma utf8_head_nonempty c rest :
  well_formed (c :: rest) = true → utf8 (c :: rest) ≠ [].
Proof.
  intros H E.
  destruct (utf8_head c rest H)
    as [(_&_&E')|[(_&_&E')|[(_&_&E')|(?&?&_&_&_&_&E')]]];
    rewrite E' in E; discriminate.
Qed.


Lemma utf8_injective_upto n : ∀ a b,
  (length a ≤ n)%nat →
  well_formed a = true → well_formed b = true →
  utf8 a = utf8 b → a = b.
Proof.
  induction n as [|n IH]; intros a b Hlen Ha Hb Heq.
  - destruct a; [|simpl in Hlen; lia].
    destruct b as [|d rb]; [done|].
    symmetry in Heq. by apply utf8_head_nonempty in Heq.
  - destruct a as [|c ra].
    { destruct b as [|d rb]; [done|].
      symmetry in Heq. by apply utf8_head_nonempty in Heq. }
    destruct b as [|d rb]; [by apply utf8_head_nonempty in Heq|].
    simpl in Hlen.
    destruct (utf8_head c ra Ha)
      as [(Hc&Hra&Ea)|[(Hc&Hra&Ea)|[(Hc&Hra&Ea)|(c2&ra'&->&Hc&Hc2&Hra&Ea)]]];
    destruct (utf8_head d rb Hb)
      as [(Hd&Hrb&Eb)|[(Hd&Hrb&Eb)|[(Hd&Hrb&Eb)|(d2&rb'&->&Hd&Hd2&Hrb&Eb)]]];
    rewrite Ea, Eb in Heq; clear Ea Eb; split_bytes Heq;
    try (exfalso; hide_div; lia).
    + subst d. f_equal. apply IH; auto; lia.
    + assert (c = d) as -> by (by apply two_bytes_eq).
      f_equal. apply IH; auto; lia.
    + assert (c = d) as -> by (by apply three_bytes_eq).
      f_equal. apply IH; auto; lia.
    + assert (code_point c c2 = code_point d d2) as Hcp
        by (by apply four_bytes_eq).
      apply code_point_eq in Hcp as [-> ->]; [|done..].
      do 2 f_equal. apply IH; auto. simpl in Hlen. lia.
Qed.

Lemma utf8_injective a b :
  well_formed a = true → well_formed b = true → utf8 a = utf8 b → a = b.
Proof. apply (utf8_injective_upto (length a)). done. Qed.

(** The byte loop finds no difference exactly on equal buffers. *)
Lemma byte_diff_zero a : ∀ b acc, length a = length b →
  byte_diff a b acc = 0 ↔ acc = 0 ∧ a = b.
Proof.
  induction a as [|x a IH]; intros [|y b] acc Hlen; simpl in *;
    try discriminate.
  - intuition.
  - rewrite IH by congruence. rewrite N.lor_eq_0_iff, N.lxor_eq_0_iff.
    split; [intros [[-> ->] ->]; done | intros [-> [= -> ->]]; done].
Qed.


Lemma crypto_timingSafeEqual_same_length a b :
  length a = length b →
  ∃ r, crypto_timingSafeEqual a b = Normal r.
Proof.
  intros H. unfold crypto_timingSafeEqual. rewrite H, Nat.eqb_refl. eauto.
Qed.

Lemma timingSafeEqual_total a b : ∃ r, timingSafeEqual a b = Normal r.
Proof.
  unfold timingSafeEqual.
  destruct a; try (simpl; eauto; fail).
  destruct b; try (simpl; eauto; fail).
  destruct (Nat.eqb_spec (length (utf8 s)) (length (utf8 s0))) as [E|E]; simpl.
  - by apply crypto_timingSafeEqual_same_length.
  - eauto.
Qed.

Lemma token_rejected_spec cfg token :
  token_rejected cfg token = mret (negb (authorized cfg token)).
Proof.
  unfold token_rejected, authorized.
  destruct (truthy token); simpl; [|done].
  destruct (timingSafeEqual_total token
              (VString (deployReceiverToken (cfg_secrets cfg)))) as [r ->].
  done.
Qed.



(** A string token is accepted exactly when it is the secret. *)
Lemma timingSafeEqual_strings sa sb :
  well_formed sa = true → well_formed sb = true →
  timingSafeEqual (VString sa) (VString sb) = Normal (bool_decide (sa = sb)).
Proof.
  intros Ha Hb. unfold timingSafeEqual.
  destruct (Nat.eqb_spec (length (utf8 sa)) (length (utf8 sb))) as [E|E];
    simpl.
  - unfold crypto_timingSafeEqual. rewrite E, Nat.eqb_refl. f_equal.
    destruct (N.eqb_spec (byte_diff (utf8 sa) (utf8 sb) 0) 0) as [D|D].
    + apply byte_diff_zero in D as [_ D]; [|done].
      apply utf8_injective in D; [|done..]. by rewrite bool_decide_eq_true_2.
    + rewrite bool_decide_eq_false_2; [done|]. intros ->.
      apply D, byte_diff_zero; done.
  - rewrite bool_decide_eq_false_2; [done|]. by intros ->.
Qed.

Lemma timingSafeEqual_not_string a b :
  typeof a ≠ lit "string" ∨ typeof b ≠ lit "string" →
  timingSafeEqual a b = Normal false.
Proof.
  intros H. unfold timingSafeEqual.
  destruct a; try done; destruct b; try done.
  destruct H as [H|H]; by destruct H.
Qed.

Lemma timingSafeEqual_length_differs sa sb :
  length (utf8 sa) ≠ length (utf8 sb) →
  timingSafeEqual (VString sa) (VString sb) = Normal false.
Proof.
  intros H. unfold timingSafeEqual.
  by destruct (Nat.eqb_spec (length (utf8 sa)) (length (utf8 sb))).
Qed.

Lemma authorized_false_wrong_token cfg token :
  well_formed (deployReceiverToken (cfg_secrets cfg)) = true →
  token_well_formed token = true →
  token ≠ VString (deployReceiverToken (cfg_secrets cfg)) →
  authorized cfg token = false.
Proof.
  intros Hs Ht Hne. unfold authorized.
  destruct token as [| | | |s| |];
    try (rewrite timingSafeEqual_not_string by (left; done);
         apply andb_false_r).
  rewrite timingSafeEqual_strings by done.
  rewrite bool_decide_eq_false_2; [apply andb_false_r | congruence].
Qed.

Lemma deploy_begin_unauthorized h cfg req s :
  authorized cfg (x_deploy_token req) = false →
  deploy_begin h cfg req s
  = (Reply (error_response 401 (lit "Unauthorized")), s).
Proof.
  intros H. unfold deploy_begin. rewrite token_rejected_spec, H.
  reflexivity.
Qed.


(** X21: a request whose token header is missing, or holds anything but
    the configured token, is answered 401 "Unauthorized" with the state
    left as it was, whatever the body and the host are: nothing is
    validated, no file is looked at, no lock is touched and nothing is
    launched.  A missing token and a wrong one get the same response.
    Strings are taken well formed, as the decoding of a header and of the
    credential file makes them. *)
Theorem unauthorized_before_anything_else h cfg req s :
  well_formed (deployReceiverToken (cfg_secrets cfg)) = true →
  token_well_formed (x_deploy_token req) = true →
  x_deploy_token req ≠ VString (deployReceiverToken (cfg_secrets cfg)) →
  deploy_begin h cfg req s
  = (Reply (error_response 401 (lit "Unauthorized")), s).
Proof.
  intros Hs Ht Hne.
  by apply deploy_begin_unauthorized, authorized_false_wrong_token.
Qed.

Lemma unauthorized_before_anything_else_witness :
  deploy_begin example_host example_config
    (example_request VUndefined (example_body "sporty" "ghcr.io/tihlde/sporty" "latest"))
    (fresh ∅)
  = (Reply (error_response 401 (lit "Unauthorized")), fresh ∅) ∧
  deploy_begin example_host example_config
    (example_request (VString (lit "s3creT")) (example_body "sporty" "ghcr.io/tihlde/sporty" "latest"))
    (fresh ∅)
  = (Reply (error_response 401 (lit "Unauthorized")), fresh ∅).
Proof.
  split.
  - apply (unauthorized_before_anything_else example_host example_config
             (example_request VUndefined _) (fresh ∅));
      [reflexivity | reflexivity | discriminate].
  - apply (unauthorized_before_anything_else example_host example_config
             (example_request (VString (lit "s3creT")) _) (fresh ∅));
      [reflexivity | reflexivity | discriminate].
Defined.


(** C10: when one of the arguments is not a string (a header sent twice,
    for instance), or both are strings of different byte lengths,
    [timingSafeEqual] returns [false] and does not throw, and the request
    is answered 401 rather than failing. *)
Theorem timingSafeEqual_never_throws a b :
  (typeof a ≠ lit "string" ∨ typeof b ≠ lit "string" ∨
   ∃ sa sb, a = VString sa ∧ b = VString sb ∧
            length (utf8 sa) ≠ length (utf8 sb)) →
  timingSafeEqual a b = Normal false ∧
  ∀ h cfg req s,
    x_deploy_token req = a →
    VString (deployReceiverToken (cfg_secrets cfg)) = b →
    deploy_begin h cfg req s
    = (Reply (error_response 401 (lit "Unauthorized")), s).
Proof.
  intros H.
  assert (E : timingSafeEqual a b = Normal false).
  { destruct H as [H|[H|(sa & sb & -> & -> & H)]].
    - apply timingSafeEqual_not_string. by left.
    - apply timingSafeEqual_not_string. by right.
    - by apply timingSafeEqual_length_differs. }
  split; [exact E|].
  intros h cfg req s Ha Hb. apply deploy_begin_unauthorized.
  unfold authorized. rewrite Ha, Hb, E. apply andb_false_r.
Qed.

Lemma timingSafeEqual_never_throws_witness :
  let twice := VArray [VString (lit "s3cret"); VString (lit "s3cret")] in
  typeof twice ≠ lit "string" ∧
  timingSafeEqual twice (VString (lit "s3cret")) = Normal false ∧
  deploy_begin example_host example_config
    (example_request twice (example_body "sporty" "ghcr.io/tihlde/sporty" "latest"))
    (fresh ∅)
  = (Reply (error_response 401 (lit "Unauthorized")), fresh ∅).
Proof.
  intros twice.
  assert (Ht : typeof twice ≠ lit "string") by discriminate.
  split; [exact Ht|].
  destruct (timingSafeEqual_never_throws twice (VString (lit "s3cret"))
              (or_introl Ht)) as [H1 H2].
  split; [exact H1|].
  by apply H2.
Defined.

(** ** The paths through the first part of the handler *)

Lemma ENVS_accepts_string v :
  ENVS_accepts v = true → ∃ e, v = VString e ∧ ENVS_has e = true.
Proof. destruct v; try done. intros H. by eexists. Qed.

(** Every run of [deploy_begin] ends in one of four ways: a rejection
    that only looked at the request and the file system; the busy
    response, after a failed acquisition; the launch, with the lock
    taken; or an exception, thrown either before anything was looked at
    or, with the lock taken, by the conversion of [reqId] for the log
    line. *)
Lemma deploy_begin_cases h cfg req l res s' :
  deploy_begin h cfg req (fresh l) = (res, s') →
  (∃ r, res = Reply r ∧ status r ≠ 409%Z ∧ status r ≠ 200%Z ∧
        output r = None ∧ is_Some (error r) ∧
        locks s' = l ∧ forallb is_fs_check (log s') = true) ∨
  (∃ rp, res = Reply (error_response 409
                        (lit "Deploy already in progress for " ++ rp)) ∧
         lock_held rp l = true ∧ locks s' = l ∧
         ∃ checks, forallb is_fs_check checks = true ∧
                   log s' = checks ++ [LockAcquire rp false]) ∨
  (∃ p, res = Next p ∧ VString (p_repo p) = repo (body_of req) ∧
        lock_held (p_repo p) l = false ∧
        locks s' = <[p_repo p := true]> l ∧
        ∃ checks i t env call,
          forallb is_fs_check checks = true ∧
          log s' = checks ++ [LockAcquire (p_repo p) true;
                              LogStart (p_reqId p) (p_repo p) i t env;
                              Spawn call]) ∨
  (∃ message, res = Fault message ∧
     ((locks s' = l ∧ log s' = []) ∨
      ∃ r checks,
        repo (body_of req) = VString r ∧ lock_held r l = false ∧
        ToString (or_val (deliveryId (body_of req))
                    (VString (randomUUID h))) = Throws message ∧
        locks s' = <[r := true]> l ∧
        forallb is_fs_check checks = true ∧
        log s' = checks ++ [LockAcquire r true])).
Proof.
  unfold deploy_begin. rewrite token_rejected_spec.
  handler_paths; path_end.
  all: try (left; eexists; split; [reflexivity|];
            cbn [status output error error_response forallb is_fs_check andb];
            repeat split; try done; by eexists).
  all: try (do 3 right; eexists; split; [reflexivity|]; left; done).
  - right; left. eexists; split; [reflexivity|]. repeat split; try done.
    eexists [_; _; _; _]. split; [|reflexivity]. reflexivity.
  - right; right; left. eexists; split; [reflexivity|]. cbn [p_repo p_reqId].
    repeat split; try done.
    eexists [_; _; _; _], _, _, _, _. split; [|reflexivity]. reflexivity.
  - exfalso.
    match goal with
    | H : negb (ENVS_accepts ?v) = false, E : ToString ?v = Throws _ |- _ =>
        apply negb_false_iff, ENVS_accepts_string in H as (e & He & _);
        rewrite He in E; discriminate
    end.
  - do 3 right. eexists; split; [reflexivity|]. right.
    eexists _, [_; _; _; _]. repeat split; try done.
Qed.

(** ** Order of validation *)

(** The allowlist is consulted while the image is still unchecked: the
    request below has an image from another registry and is answered 403,
    not 400. *)
Lemma policy_checked_before_image_syntax :
  ¬ syntax_before_policy example_host example_config unlisted_request ∅.
Proof.
  intros H.
  specialize (H (error_response 403 (lit "Repo not in allowlist")) (fresh ∅)).
  discriminate H; reflexivity.
Qed.

Ltac begin_path :=
  unfold deploy_begin; rewrite token_rejected_spec;
  unfold missing_fields, allowlisted, env_of in *.


(** C2, in the order the handler has: for an authenticated request the
    checks run in the order presence of the fields, repository syntax,
    allowlist, image syntax, tag syntax, environment; the first one that
    fails fixes the response, whatever the later ones, the file system and
    the lock table are. *)
Theorem validation_order h cfg req s :
  authorized cfg (x_deploy_token req) = true →
  let b := body_of req in
  let bad code message := (@Reply pending (error_response code message), s) in
  let out := deploy_begin h cfg req s in
  (missing_fields b = true →
   out = bad 400%Z (lit "Missing required fields: repo, image, tag")) ∧
  (missing_fields b = false →
   RegExp_test REPO_SLUG_RE (repo b) = Normal false →
   out = bad 400%Z (lit "Invalid repo slug format")) ∧
  (missing_fields b = false →
   RegExp_test REPO_SLUG_RE (repo b) = Normal true →
   allowlisted cfg (repo b) = false →
   out = bad 403%Z (lit "Repo not in allowlist")) ∧
  (missing_fields b = false →
   RegExp_test REPO_SLUG_RE (repo b) = Normal true →
   allowlisted cfg (repo b) = true →
   RegExp_test IMAGE_RE (image b) = Normal false →
   out = bad 400%Z
           (lit "Invalid image format (must be ghcr.io/" ++ ellipsis
              ++ lit ")")) ∧
  (missing_fields b = false →
   RegExp_test REPO_SLUG_RE (repo b) = Normal true →
   allowlisted cfg (repo b) = true →
   RegExp_test IMAGE_RE (image b) = Normal true →
   RegExp_test TAG_RE (tag b) = Normal false →
   out = bad 400%Z (lit "Invalid tag format")) ∧
  (missing_fields b = false →
   RegExp_test REPO_SLUG_RE (repo b) = Normal true →
   allowlisted cfg (repo b) = true →
   RegExp_test IMAGE_RE (image b) = Normal true →
   RegExp_test TAG_RE (tag b) = Normal true →
   ENVS_accepts (env_of b) = false →
   out = bad 400%Z (lit "Invalid environment value")).
Proof.
  intros Hauth b bad out. subst b bad out. cbv zeta.
  repeat split.
  - intros Hm. begin_path. by rewrite Hauth, Hm.
  - intros Hm Hs. begin_path. by rewrite Hauth, Hm, Hs.
  - intros Hm Hs Ha. begin_path. rewrite Hauth, Hm, Hs.
    destruct (allowlist cfg); [by rewrite Ha | done].
  - intros Hm Hs Ha Hi. begin_path. rewrite Hauth, Hm, Hs.
    destruct (allowlist cfg); [rewrite Ha|]; by rewrite Hi.
  - intros Hm Hs Ha Hi Ht. begin_path. rewrite Hauth, Hm, Hs.
    destruct (allowlist cfg); [rewrite Ha|]; by rewrite Hi, Ht.
  - intros Hm Hs Ha Hi Ht He. begin_path. rewrite Hauth, Hm, Hs.
    destruct (allowlist cfg); [rewrite Ha|]; by rewrite Hi, Ht, He.
Qed.

Lemma validation_order_witness :
  authorized example_config (x_deploy_token unlisted_request) = true ∧
  regex_test IMAGE_RE (lit "docker.io/tihlde/blitzed") = false ∧
  deploy_begin example_host example_config unlisted_request (fresh ∅)
  = (Reply (error_response 403 (lit "Repo not in allowlist")), fresh ∅).
Proof.
  assert (Hauth : authorized example_config (x_deploy_token unlisted_request)
                  = true) by reflexivity.
  split; [exact Hauth|]. split; [reflexivity|].
  destruct (validation_order example_host example_config unlisted_request
              (fresh ∅) Hauth) as (_ & _ & H & _).
  apply H; reflexivity.
Defined.

(** ** Lock, launch and response *)

Lemma releases_app r l1 l2 :
  releases r (l1 ++ l2) = (releases r l1 + releases r l2)%nat.
Proof. unfold releases. by rewrite filter_app, length_app. Qed.

Lemma releases_cons r e l :
  releases r (e :: l)
  = ((if is_release r e then 1 else 0) + releases r l)%nat.
Proof.
  unfold releases. rewrite filter_cons.
  destruct (is_release r e); by case_decide.
Qed.

Lemma releases_fs_checks r checks :
  forallb is_fs_check checks = true → releases r checks = 0%nat.
Proof.
  induction checks as [|e checks IH]; [done|].
  simpl. intros [He Hc]%andb_true_iff.
  rewrite releases_cons, IH by done. by destruct e.
Qed.

Lemma spawn_not_fs_check checks call :
  forallb is_fs_check checks = true → Spawn call ∉ checks.
Proof.
  intros H Hin. rewrite forallb_forall in H.
  apply list_elem_of_In, H in Hin. discriminate.
Qed.

Lemma deploy_finish_releases cfg p o s :
  ∃ r entry,
    deploy_finish cfg p o s
    = (Reply r,
       {| locks := delete (p_repo p) (locks s);
          log := log s ++ [entry; LockRelease (p_repo p)] |}) ∧
    is_release (p_repo p) entry = false ∧
    status r ≠ 409%Z ∧
    (output r = None ∨ error r = None).
Proof.
  handler_unfold. unfold releaseLock.
  destruct o as [code out err|message]; cbv beta iota zeta.
  - destruct (exit_code_is_zero code); cbn [locks log snd];
      rewrite <- app_assoc; do 2 eexists; (split; [reflexivity|]);
      repeat split; auto.
  - cbn [locks log snd]. rewrite <- app_assoc.
    do 2 eexists. split; [reflexivity|]. repeat split; auto.
Qed.

(** X22: once [deploy_begin] has taken the lock and launched the script,
    the lock is held and not yet released; however the promise settles
    (exit code 0, another code, no code after a kill, or a rejection such
    as a spawn failure) and whatever happened to the table meanwhile,
    [deploy_finish] answers and releases the lock exactly once, after
    which the table has no entry for the repository; over such a request
    the lock is released exactly once. *)
Theorem lock_released_exactly_once h cfg req l p s1 :
  deploy_begin h cfg req (fresh l) = (Next p, s1) →
  (LockAcquire (p_repo p) true ∈ log s1 ∧
   locks s1 !! p_repo p = Some true ∧
   releases (p_repo p) (log s1) = 0%nat) ∧
  (∀ o s2, ∃ r added,
     deploy_finish cfg p o s2
     = (Reply r, {| locks := delete (p_repo p) (locks s2);
                    log := log s2 ++ added |}) ∧
     releases (p_repo p) added = 1%nat ∧
     delete (p_repo p) (locks s2) !! p_repo p = None) ∧
  (∀ o, ∃ r s3,
     deploy h cfg req o (fresh l) = (Reply r, s3) ∧
     releases (p_repo p) (log s3) = 1%nat ∧
     locks s3 !! p_repo p = None).
Proof.
  intros Hb.
  assert (Hrel : ∀ entry, is_release (p_repo p) entry = false →
            releases (p_repo p) [entry; LockRelease (p_repo p)] = 1%nat).
  { intros entry He. rewrite !releases_cons, He. simpl.
    unfold str_eqb. by rewrite bool_decide_eq_true_2. }
  destruct (deploy_begin_cases _ _ _ _ _ _ Hb)
    as [(r & ? & _)|[(rp & ? & _)
       |[(p' & [= <-] & _ & Hfree & Hl & Hlog)|(m & ? & _)]]];
    [discriminate..| |discriminate].
  destruct Hlog as (checks & i & t & env & call & Hc & Hlog).
  assert (H0 : releases (p_repo p) (log s1) = 0%nat).
  { rewrite Hlog, releases_app, releases_fs_checks by done.
    by rewrite !releases_cons. }
  split; [|split].
  - split; [|split; [|exact H0]].
    + rewrite Hlog. apply elem_of_app. right. left.
    + rewrite Hl. apply lookup_insert_eq.
  - intros o s2.
    destruct (deploy_finish_releases cfg p o s2) as (r & entry & E & He & _).
    exists r, [entry; LockRelease (p_repo p)]. split; [exact E|].
    split; [by apply Hrel | apply lookup_delete_eq].
  - intros o.
    destruct (deploy_finish_releases cfg p o s1) as (r & entry & E & He & _).
    exists r. eexists. unfold deploy, mbind, handler_bind.
    rewrite Hb, E. split; [reflexivity|]. cbn [locks log]. split.
    + rewrite releases_app, H0, Hrel; done.
    + apply lookup_delete_eq.
Qed.

Lemma lock_released_exactly_once_witness :
  fst (deploy_begin example_host example_config good_request (fresh ∅))
  = Next good_pending ∧
  ∃ r s3,
    deploy example_host example_config good_request
      (Rejected (lit "spawn /bin/bash ENOENT")) (fresh ∅) = (Reply r, s3) ∧
    releases (lit "sporty") (log s3) = 1%nat ∧
    locks s3 !! lit "sporty" = None.
Proof.
  split; [reflexivity|].
  assert (H : deploy_begin example_host example_config good_request (fresh ∅)
              = (Next good_pending,
                 snd (deploy_begin example_host example_config good_request
                        (fresh ∅)))) by reflexivity.
  destruct (lock_released_exactly_once _ _ _ _ _ _ H) as (_ & _ & H3).
  exact (H3 (Rejected (lit "spawn /bin/bash ENOENT"))).
Defined.

(** C3, at the input where the code departs from it.  The log line
    between [acquireLock] and the [try] converts [reqId] to a string; for
    a [deliveryId] that is an object with a property [toString] the
    conversion throws.  The handler ends there, with the lock taken and
    the [finally] that releases it never entered: nothing is launched,
    nothing is sent, the lock is not released, and the repository answers
    409 to every later request. *)
Theorem lock_is_kept_when_the_log_line_throws :
  let stuck :=
    {| locks := {[ lit "sporty" := true ]};
       log := [FsExists (lit "/home/apps/sporty");
               FsStat (lit "/home/apps/sporty");
               FsExists (lit "/home/apps/sporty/deploy.sh");
               FsAccess (lit "/home/apps/sporty/deploy.sh");
               LockAcquire (lit "sporty") true] |} in
  deploy_begin example_host example_config wedging_request (fresh ∅)
  = (Fault not_primitive, stuck) ∧
  (∀ c, serve example_host example_config wedging_request c (fresh ∅)
        = Some (Fault not_primitive, stuck)) ∧
  releases (lit "sporty") (log stuck) = 0%nat ∧
  locks stuck !! lit "sporty" = Some true ∧
  fst (deploy_begin example_host example_config good_request
         (fresh (locks stuck)))
  = Reply (error_response 409 (lit "Deploy already in progress for sporty")).
Proof.
  intros stuck.
  assert (H : deploy_begin example_host example_config wedging_request
                (fresh ∅) = (Fault not_primitive, stuck)) by reflexivity.
  split; [exact H|]. split.
  - intros c. unfold serve. by rewrite H.
  - split; [reflexivity|]. split; reflexivity.
Qed.


(** C4: the lock acquisition fails exactly when the response has status
    409, a status no other path of the handler uses; in that case the
    response is the busy message, the repository was locked before, the
    table is unchanged and nothing was launched. *)
Theorem busy_is_a_distinct_outcome h cfg req l res s' :
  deploy_begin h cfg req (fresh l) = (res, s') →
  ((∃ r, LockAcquire r false ∈ log s') ↔
   (∃ resp, res = Reply resp ∧ status resp = 409%Z)) ∧
  ((∃ r, LockAcquire r false ∈ log s') →
   (∃ r, res = Reply (error_response 409
                        (lit "Deploy already in progress for " ++ r)) ∧
         lock_held r l = true) ∧
   locks s' = l ∧
   ∀ call, Spawn call ∉ log s') ∧
  (∀ p o s r s2,
     deploy_finish cfg p o s = (Reply r, s2) → status r ≠ 409%Z).
Proof.
  intros Hb.
  assert (Hfs : ∀ checks r, forallb is_fs_check checks = true →
                  LockAcquire r false ∉ checks).
  { intros checks r H Hin. rewrite forallb_forall in H.
    apply list_elem_of_In, H in Hin. discriminate. }
  assert (Hnone : ∀ checks r r', forallb is_fs_check checks = true →
                    LockAcquire r false ∉ checks ++ [LockAcquire r' true]).
  { intros checks r r' H [Hin|Hin]%elem_of_app; [by apply Hfs in Hin|].
    apply elem_of_cons in Hin as [Hin|Hin]; [discriminate|].
    by apply elem_of_nil in Hin. }
  split; [|split].
  - destruct (deploy_begin_cases _ _ _ _ _ _ Hb)
      as [(r & -> & H9 & _ & _ & _ & _ & Hc)
         |[(rp & -> & _ & _ & checks & Hc & ->)
          |[(p & -> & _ & _ & _ & checks & i & t & env & call & Hc & ->)
           |(m & -> & [[_ ->]|(r & checks & _ & _ & _ & _ & Hc & ->)])]]].
    + split.
      * intros [r' Hin]. by apply Hfs in Hin.
      * intros (resp & [= <-] & E). done.
    + split; [by eauto|]. intros _. exists rp.
      apply elem_of_app. right. left.
    + split.
      * intros [r' [Hin|Hin]%elem_of_app]; [by apply Hfs in Hin|].
        repeat (apply elem_of_cons in Hin as [Hin|Hin]; [discriminate|]).
        by apply elem_of_nil in Hin.
      * intros (resp & [=] & _).
    + split; [|intros (resp & [=] & _)].
      intros [r' Hin]. by apply elem_of_nil in Hin.
    + split; [|intros (resp & [=] & _)].
      intros [r' Hin]. by apply Hnone in Hin.
  - intros [r' Hin].
    destruct (deploy_begin_cases _ _ _ _ _ _ Hb)
      as [(r & -> & H9 & _ & _ & _ & _ & Hc)
         |[(rp & -> & Hheld & Hl & checks & Hc & Hlog)
          |[(p & -> & _ & _ & _ & checks & i & t & env & call & Hc & Hlog)
           |(m & -> & [[_ Hlog]|(r & checks & _ & _ & _ & _ & Hc & Hlog)])]]].
    + by apply Hfs in Hin.
    + split; [by eauto|]. split; [done|].
      intros call. rewrite Hlog. intros [H|H]%elem_of_app.
      * by apply spawn_not_fs_check in H.
      * apply elem_of_cons in H as [H|H]; [discriminate|].
        by apply elem_of_nil in H.
    + rewrite Hlog in Hin. apply elem_of_app in Hin as [Hin|Hin];
        [by apply Hfs in Hin|].
      repeat (apply elem_of_cons in Hin as [Hin|Hin]; [discriminate|]).
      by apply elem_of_nil in Hin.
    + rewrite Hlog in Hin. by apply elem_of_nil in Hin.
    + rewrite Hlog in Hin. by apply Hnone in Hin.
  - intros p o s r s2 E.
    destruct (deploy_finish_releases cfg p o s) as (r' & entry & E' & _ & H & _).
    rewrite E' in E. by injection E as <- _.
Qed.

Lemma busy_is_a_distinct_outcome_witness :
  deploy_begin example_host example_config good_request (fresh busy_locks)
  = (Reply (error_response 409
              (lit "Deploy already in progress for sporty")),
     snd (deploy_begin example_host example_config good_request
            (fresh busy_locks))) ∧
  locks (snd (deploy_begin example_host example_config good_request
                (fresh busy_locks))) = busy_locks ∧
  ∀ call, Spawn call ∉ log (snd (deploy_begin example_host example_config
                                   good_request (fresh busy_locks))).
Proof.
  assert (H : deploy_begin example_host example_config good_request
                (fresh busy_locks)
              = (Reply (error_response 409
                          (lit "Deploy already in progress for sporty")),
                 snd (deploy_begin example_host example_config good_request
                        (fresh busy_locks)))) by reflexivity.
  split; [exact H|].
  destruct (busy_is_a_distinct_outcome _ _ _ _ _ _ H) as (H1 & H2 & _).
  assert (Hbusy : ∃ r, LockAcquire r false
                         ∈ log (snd (deploy_begin example_host example_config
                                       good_request (fresh busy_locks)))).
  { apply H1. eexists. split; reflexivity. }
  destruct (H2 Hbusy) as (_ & Hl & Hs). split; assumption.
Defined.

(** ** The response after the run *)

Lemma tail_suffix s n : tail s n `suffix_of` s.
Proof.
  unfold tail, slice_from. destruct (falsy s); [apply suffix_nil|].
  destruct (Z.of_nat (length s) >? n)%Z; [apply suffix_drop | done].
Qed.

Lemma tail_bounded s n :
  (1 <= n)%Z → (Z.of_nat (length (tail s n)) <= n)%Z.
Proof.
  intros Hn. destruct (Z.lt_ge_cases n (Z.of_nat (length s))) as [H|H].
  - destruct (tail_beyond s n) as [_ ->]; lia.
  - rewrite tail_within; lia.
Qed.




(** ** The run of the script *)

Section Runner.
Local Open Scope Z_scope.

Lemma deliver_chunks_spec upto chunks : ∀ st,
  deliver_chunks upto chunks st
  = with_buffers (rs_stdout st ++ captured false upto chunks)
                 (rs_stderr st ++ captured true upto chunks) st.
Proof.
  unfold deliver_chunks, captured.
  induction chunks as [|[[t e] d] chunks IH]; intros st; simpl.
  - rewrite !app_nil_r. by destruct st.
  - rewrite IH. destruct (t <=? upto); simpl; [|done].
    unfold on_data. destruct e; simpl; by rewrite <- !app_assoc.
Qed.

Lemma timer_delay_in_range ms :
  1 <= ms <= 2147483647 → timer_delay ms = ms.
Proof.
  intros H. unfold timer_delay.
  destruct (Z.ltb_spec ms 1); [lia|].
  destruct (Z.gtb_spec ms 2147483647); [lia|done].
Qed.

Lemma spawn_accepts ms :
  0 <= ms <= 9007199254740991 → spawn_refuses ms = false.
Proof.
  intros H. unfold spawn_refuses.
  destruct (Z.ltb_spec ms 0); [lia|].
  destruct (Z.gtb_spec ms 9007199254740991); [lia|done].
Qed.

Lemma loop_step fuel sc w t e :
  earliest (pending_events w) = Some (t, e) →
  event_loop (S fuel) sc w = event_loop fuel sc (dispatch sc t e w).
Proof. intros H. simpl. by rewrite H. Qed.

Lemma loop_idle fuel sc w :
  earliest (pending_events w) = None → event_loop fuel sc w = w.
Proof. intros H. destruct fuel; simpl; [done | by rewrite H]. Qed.

(** One turn of the loop, when the order of the pending events is known. *)
Ltac turn :=
  erewrite loop_step;
    [| run_eval; repeat (split_time; run_eval); reflexivity];
  run_eval; rewrite ?deliver_chunks_spec; run_eval;
  rewrite ?Z.max_l by lia;
  repeat (split_time; run_eval).

Ltac quiesce :=
  rewrite loop_idle; [| run_eval; repeat (split_time; run_eval); reflexivity].

Ltac start_run :=
  unfold run, run_fuel, launched;
  rewrite spawn_accepts by lia;
  rewrite timer_delay_in_range by done;
  change (timer_delay 5000) with 5000;
  match goal with
  | |- context [(?T >? 0)] => destruct (Z.gtb_spec T 0); [|lia]
  end;
  run_eval.

Lemma run_in_time h cfg chunks e code term :
  let T := deployTimeoutMs cfg in
  1 <= T <= 2147483647 → 0 <= e <= T →
  run h cfg (Runs {| sc_chunks := chunks; sc_exit := Some (e, code);
                     sc_on_sigterm := term; sc_pipes_free := Some 0 |})
  = ({| rs_stdout := captured false e chunks;
        rs_stderr := captured true e chunks;
        rs_settled := Some (e, Resolved (Some code) (captured false e chunks)
                                 (captured true e chunks));
        rs_spawn_timer := None; rs_timer := None; rs_kill_timer := None;
        rs_kills := [] |},
     no_process).
Proof.
  intros T HT He. subst T. start_run. turn. turn. quiesce. reflexivity.
Qed.

Ltac finish_run :=
  repeat turn; quiesce; cbn;
  (split; [eexists _, _; split; [reflexivity | lia]
          | split; [reflexivity | intros _; eexists; reflexivity]]).

Lemma run_general h cfg sc :
  let T := deployTimeoutMs cfg in
  1 <= T <= 2147483647 → times_ok sc → leaves_nothing_behind sc →
  let final := run h cfg (Runs sc) in
  (∃ t o, rs_settled (fst final) = Some (t, o) ∧ t <= T + 5000) ∧
  pending_events final = [] ∧
  (exits_by sc T = false →
   ∃ more, signals_sent (fst final) = (T, SIGTERM) :: more).
Proof.
  intros T HT [He Hd] Hp final. subst final T.
  destruct sc as [chunks [[e code]|] [[d c]|] free];
    unfold leaves_nothing_behind in Hp; simpl in He, Hd, Hp; subst free;
    unfold exits_by; cbn [sc_exit];
    try specialize (He _ _ eq_refl); try specialize (Hd _ _ eq_refl).
  - destruct (Z.le_gt_cases e (deployTimeoutMs cfg)) as [H1|H1].
    { rewrite run_in_time by done. cbn.
      split; [eexists _, _; split; [reflexivity|lia]|split; [done|]].
      destruct (Z.leb_spec e (deployTimeoutMs cfg)); [done|lia]. }
    destruct (Z.le_gt_cases e (deployTimeoutMs cfg + d)),
             (Z.le_gt_cases e (deployTimeoutMs cfg + 5000)),
             (Z.le_gt_cases d 5000), (Z.eq_dec d 0);
      try lia; start_run; finish_run.
  - destruct (Z.le_gt_cases e (deployTimeoutMs cfg)) as [H1|H1].
    { rewrite run_in_time by done. cbn.
      split; [eexists _, _; split; [reflexivity|lia]|split; [done|]].
      destruct (Z.leb_spec e (deployTimeoutMs cfg)); [done|lia]. }
    destruct (Z.le_gt_cases e (deployTimeoutMs cfg + 5000));
      start_run; finish_run.
  - destruct (Z.le_gt_cases d 5000), (Z.eq_dec d 0);
      try lia; start_run; finish_run.
  - start_run; finish_run.
Qed.

Lemma run_killed h cfg sc :
  let T := deployTimeoutMs cfg in
  1 <= T <= 2147483647 → times_ok sc → leaves_nothing_behind sc →
  exits_by sc (T + 5000) = false →
  heeds_sigterm_within sc 5000 = false →
  run h cfg (Runs sc)
  = ({| rs_stdout := captured false (T + 5000) (sc_chunks sc);
        rs_stderr := captured true (T + 5000) (sc_chunks sc);
        rs_settled :=
          Some (T + 5000,
                Resolved None (captured false (T + 5000) (sc_chunks sc))
                  (captured true (T + 5000) (sc_chunks sc)));
        rs_spawn_timer := None; rs_timer := None; rs_kill_timer := None;
        rs_kills := [(T, SIGTERM, true); (T, SIGTERM, true);
                     (T + 5000, SIGKILL, true)] |},
     no_process).
Proof.
  intros T HT [He Hd] Hp. subst T.
  unfold exits_by, heeds_sigterm_within.
  destruct sc as [chunks [[e code]|] [[d c]|] free];
    unfold leaves_nothing_behind in Hp; simpl in He, Hd, Hp; subst free;
    cbn [sc_exit sc_on_sigterm sc_chunks];
    try specialize (He _ _ eq_refl); try specialize (Hd _ _ eq_refl);
    intros H1 H2;
    try apply Z.leb_gt in H1; try apply Z.leb_gt in H2;
    start_run; repeat turn; quiesce; reflexivity.
Qed.

Lemma run_spawn_failure h cfg message :
  1 <= deployTimeoutMs cfg <= 2147483647 →
  run h cfg (SpawnFails message)
  = ({| rs_stdout := []; rs_stderr := [];
        rs_settled := Some (0, Rejected message);
        rs_spawn_timer := None; rs_timer := None; rs_kill_timer := None;
        rs_kills := [(deployTimeoutMs cfg, SIGTERM, false)] |},
     no_process).
Proof.
  intros HT. start_run. repeat turn. quiesce. reflexivity.
Qed.

(** C7, for the timeouts and the scripts it holds for: with a timeout T
    of 1 ms to 2^31 - 1 ms, and a script that leaves no process behind
    holding its pipes (so that [close] follows the end of the script, an
    end that SIGKILL brings about at once), every run settles, at
    T + 5000 ms at the latest, and the handler goes on from its [await].
    A script that exits by the timeout is never signalled and its timers
    are cancelled.  A script still running at the timeout is sent SIGTERM
    then (by the [timeout] option of [spawn] and by [timer]); one that is
    still alive 5000 ms later (it ignores SIGTERM or takes longer to
    stop) is sent SIGKILL at T + 5000, the run closes without an exit
    code, and the response is the failure 500. *)
Theorem timeout_ladder h cfg sc :
  let T := deployTimeoutMs cfg in
  1 <= T <= 2147483647 → times_ok sc → leaves_nothing_behind sc →
  let final := fst (run h cfg (Runs sc)) in
  (∃ t o, rs_settled final = Some (t, o) ∧ t <= T + 5000 ∧
          runDeploy h cfg (Runs sc) = Some o ∧
          pending_events (run h cfg (Runs sc)) = []) ∧
  (∀ req s, is_Some (serve h cfg req (Runs sc) s)) ∧
  (∀ e code, sc_exit sc = Some (e, code) → e <= T →
     rs_kills final = [] ∧ rs_timer final = None ∧
     rs_kill_timer final = None ∧
     rs_settled final
     = Some (e, Resolved (Some code) (captured false e (sc_chunks sc))
                  (captured true e (sc_chunks sc)))) ∧
  (exits_by sc T = false →
   ∃ more, signals_sent final = (T, SIGTERM) :: more) ∧
  (exits_by sc (T + 5000) = false → heeds_sigterm_within sc 5000 = false →
   signals_sent final
   = [(T, SIGTERM); (T, SIGTERM); (T + 5000, SIGKILL)] ∧
   ∃ out err,
     runDeploy h cfg (Runs sc) = Some (Resolved None out err) ∧
     rs_settled final = Some (T + 5000, Resolved None out err) ∧
     ∀ p s, ∃ r,
       fst (deploy_finish cfg p (Resolved None out err) s) = Reply r ∧
       status r = 500 ∧ ok r = false ∧ output r = None).
Proof.
  intros T HT Hok Hp final.
  destruct (run_general h cfg sc HT Hok Hp)
    as ((t & o & Hs & Ht) & Hq & Hterm).
  fold final in Hs, Hterm.
  assert (Hrun : runDeploy h cfg (Runs sc) = Some o).
  { unfold runDeploy. fold final. by rewrite Hs. }
  split; [by eauto 10|]. split; [|split; [|split; [done|]]].
  - intros req s. unfold serve. rewrite Hrun.
    destruct (deploy_begin h cfg req s) as [[r|m|p] s']; by eexists.
  - intros e code He Hle. subst final.
    destruct Hok as [Hok _]. pose proof (Hok _ _ He) as H0.
    destruct sc as [chunks ex term free].
    unfold leaves_nothing_behind in Hp.
    cbn [sc_exit sc_chunks sc_pipes_free] in *. subst ex free.
    by rewrite run_in_time.
  - intros H1 H2. subst final. unfold runDeploy.
    rewrite (run_killed h cfg sc HT Hok Hp H1 H2). cbn [fst rs_settled].
    split; [reflexivity|]. eexists _, _.
    split; [reflexivity|]. split; [reflexivity|].
    intros p s. eexists. split; [reflexivity|]. done.
Qed.

Lemma stubborn_script_times_ok : times_ok stubborn_script.
Proof. split; intros ? ? [=]. Qed.

Lemma timeout_ladder_witness :
  (1 <= deployTimeoutMs example_config <= 2147483647) ∧
  signals_sent (fst (run example_host example_config (Runs stubborn_script)))
  = [(180000, SIGTERM); (180000, SIGTERM); (185000, SIGKILL)] ∧
  runDeploy example_host example_config (Runs stubborn_script)
  = Some (Resolved None (lit "pulling") []).
Proof.
  assert (HT : 1 <= deployTimeoutMs example_config <= 2147483647)
    by (cbn; unfold DEFAULT_DEPLOY_TIMEOUT_MS; lia).
  split; [exact HT|].
  destruct (timeout_ladder example_host example_config stubborn_script HT
              stubborn_script_times_ok eq_refl)
    as (_ & _ & _ & _ & H).
  destruct (H eq_refl eq_refl) as (Hsig & out & err & Hrun & _).
  split; [exact Hsig|]. reflexivity.
Defined.

(** The ladder outside its range.  [setTimeout] takes a delay above
    2^31 - 1 ms for 1 ms: with [DEPLOY_TIMEOUT_MS=2147483648] a script
    that would exit after 600 ms is sent SIGTERM after 1 ms.  And [close]
    waits for the pipes: when the script has left a process behind that
    holds them, the promise never settles, whatever the timers do. *)
Lemma timeout_ladder_has_conditions :
  ¬ ladder_claim example_host wide_config quick_script ∧
  ¬ ladder_claim example_host example_config lingering_script.
Proof.
  split.
  - intros [H _]. specialize (H eq_refl). vm_compute in H. discriminate H.
  - intros (_ & _ & H). vm_compute in H. by destruct H.
Qed.


(** ** Launch failures, graceful stops, hangs *)

(** With its fields strings or absent, a request never makes the first
    part of the handler throw. *)
Lemma deploy_begin_text h cfg req s res s' :
  fields_are_text (body_of req) →
  deploy_begin h cfg req s = (res, s') → ∀ message, res ≠ Fault message.
Proof.
  intros (Hr & Hi & Ht & Hd).
  unfold deploy_begin. rewrite token_rejected_spec. cbv zeta.
  revert Hr Hi Ht Hd. generalize (body_of req). intros b Hr Hi Ht Hd.
  assert (Hid : ∃ t, ToString (or_val (deliveryId b)
                                 (VString (randomUUID h))) = Normal t).
  { destruct Hd as [->|[t ->]]; [by eexists|].
    unfold or_val. destruct (truthy (VString t)); by eexists. }
  destruct Hid as [t Et]. rewrite Et.
  destruct Hr as [->|[r ->]], Hi as [->|[i ->]], Ht as [->|[g ->]];
    cbn [ToString]; handler_paths; path_end; try discriminate.
  all: exfalso;
    match goal with
    | H : negb (ENVS_accepts ?v) = false, E : ToString ?v = Throws _ |- _ =>
        apply negb_false_iff, ENVS_accepts_string in H as (e & He & _);
        rewrite He in E; discriminate
    end.
Qed.

(** X14: when the script cannot be spawned, the promise is rejected with
    the error (it is never resolved as a run with an exit code), no
    signal reaches any process, and the handler answers 500 with the
    message of the error and releases the lock. *)
Theorem spawn_failure_is_reported h cfg message :
  1 <= deployTimeoutMs cfg <= 2147483647 →
  runDeploy h cfg (SpawnFails message) = Some (Rejected message) ∧
  signals_sent (fst (run h cfg (SpawnFails message))) = [] ∧
  ∀ p s,
    deploy_finish cfg p (Rejected message) s
    = (Reply {| status := 500; ok := false;
                r_repo := Some (VString (p_repo p));
                r_image := Some (p_image p); r_tag := Some (p_tag p);
                output := None; error := Some message |},
       {| locks := delete (p_repo p) (locks s);
          log := log s ++ [LogError (p_reqId p) message;
                           LockRelease (p_repo p)] |}).
Proof.
  intros HT. unfold runDeploy. rewrite run_spawn_failure by done.
  split; [reflexivity|]. split; [reflexivity|].
  intros p s. unfold deploy_finish, try_finally, shape_response, release,
    releaseLock. handler_unfold. cbn [fst snd locks log].
  by rewrite <- app_assoc.
Qed.

Lemma spawn_failure_is_reported_witness :
  (1 <= deployTimeoutMs example_config <= 2147483647) ∧
  runDeploy example_host example_config
    (SpawnFails (lit "spawn /bin/bash ENOENT"))
  = Some (Rejected (lit "spawn /bin/bash ENOENT")).
Proof.
  assert (HT : 1 <= deployTimeoutMs example_config <= 2147483647)
    by (cbn; unfold DEFAULT_DEPLOY_TIMEOUT_MS; lia).
  split; [exact HT|].
  exact (proj1 (spawn_failure_is_reported example_host example_config _ HT)).
Defined.

(** X15: with a timeout T of 1 ms to 2^31 - 1 ms, a script that leaves no
    process behind holding its pipes, is still running at T and stops
    d ms after SIGTERM (0 < d <= 5000) closes at T + d with the exit code
    of its own handler; the second timer is not cancelled and calls
    [child.kill("SIGKILL")] at T + 5000 on the process that has ended,
    so no SIGKILL is delivered.  If the script exits with code 0, the
    request is answered 200 although the run had timed out. *)
Theorem graceful_stop_is_reported_as_it_exits h cfg sc d code :
  let T := deployTimeoutMs cfg in
  1 <= T <= 2147483647 → times_ok sc → leaves_nothing_behind sc →
  sc_on_sigterm sc = Some (d, code) → 0 < d <= 5000 →
  exits_by sc (T + d) = false →
  let final := fst (run h cfg (Runs sc)) in
  rs_settled final
  = Some (T + d, Resolved code (captured false (T + d) (sc_chunks sc))
                   (captured true (T + d) (sc_chunks sc))) ∧
  rs_kills final
  = [(T, SIGTERM, true); (T, SIGTERM, true); (T + 5000, SIGKILL, false)] ∧
  signals_sent final = [(T, SIGTERM); (T, SIGTERM)] ∧
  (code = Some 0 →
   ∀ p s, ∃ r,
     fst (deploy_finish cfg p
            (Resolved code (captured false (T + d) (sc_chunks sc))
               (captured true (T + d) (sc_chunks sc))) s) = Reply r ∧
     status r = 200 ∧ ok r = true).
Proof.
  intros T HT [He _] Hp Hterm Hd Hex final. subst final T.
  destruct sc as [chunks ex term free]. unfold leaves_nothing_behind in Hp.
  cbn [sc_on_sigterm sc_chunks sc_pipes_free] in *.
  subst term free. unfold exits_by in Hex. cbn [sc_exit] in *.
  assert (Hrun :
    run h cfg (Runs {| sc_chunks := chunks; sc_exit := ex;
                       sc_on_sigterm := Some (d, code);
                       sc_pipes_free := Some 0 |})
    = ({| rs_stdout := captured false (deployTimeoutMs cfg + d) chunks;
          rs_stderr := captured true (deployTimeoutMs cfg + d) chunks;
          rs_settled :=
            Some (deployTimeoutMs cfg + d,
                  Resolved code
                    (captured false (deployTimeoutMs cfg + d) chunks)
                    (captured true (deployTimeoutMs cfg + d) chunks));
          rs_spawn_timer := None; rs_timer := None; rs_kill_timer := None;
          rs_kills := [(deployTimeoutMs cfg, SIGTERM, true);
                       (deployTimeoutMs cfg, SIGTERM, true);
                       (deployTimeoutMs cfg + 5000, SIGKILL, false)] |},
       no_process)).
  { destruct ex as [[e c0]|].
    - apply Z.leb_gt in Hex. specialize (He _ _ eq_refl).
      start_run. repeat turn. quiesce. reflexivity.
    - start_run. repeat turn. quiesce. reflexivity. }
  rewrite Hrun. cbn [fst rs_settled rs_kills].
  split; [reflexivity|]. split; [reflexivity|]. split; [reflexivity|].
  intros -> p s. eexists. split; [reflexivity|]. done.
Qed.

Lemma graceful_stop_is_reported_as_it_exits_witness :
  signals_sent (fst (run example_host example_config (Runs graceful_script)))
  = [(180000, SIGTERM); (180000, SIGTERM)] ∧
  runDeploy example_host example_config (Runs graceful_script)
  = Some (Resolved (Some 0) (lit "stopping") []).
Proof.
  assert (HT : 1 <= deployTimeoutMs example_config <= 2147483647)
    by (cbn; unfold DEFAULT_DEPLOY_TIMEOUT_MS; lia).
  assert (Hok : times_ok graceful_script).
  { split; [intros ? ? [=] | intros ? ? [= <- _]; lia]. }
  destruct (graceful_stop_is_reported_as_it_exits example_host example_config
              graceful_script 200 (Some 0) HT Hok eq_refl eq_refl
              ltac:(lia) eq_refl) as (_ & _ & H & _).
  split; [exact H | reflexivity].
Defined.

(** X16: with a timeout of 1 ms to 2^31 - 1 ms, a script that leaves no
    process behind holding its pipes, a lock table as the code builds it
    and a body whose repo, image, tag and deliveryId are strings or
    absent, a request handled from arrival to response is always
    answered, whatever the host and the script do, and the lock table is
    afterwards what it was before. *)
Theorem serve_answers_and_restores (h : host) (cfg : config) (req : request)
    (c : child) (l : lock_table) :
  1 <= deployTimeoutMs cfg <= 2147483647 →
  (∀ sc, c = Runs sc → times_ok sc ∧ leaves_nothing_behind sc) →
  markers_true l →
  fields_are_text (body_of req) →
  ∃ r s', serve h cfg req c (fresh l) = Some (Reply r, s') ∧ locks s' = l.
Proof.
  intros HT Hc Hl Hb. unfold serve.
  destruct (deploy_begin h cfg req (fresh l)) as [res s1] eqn:Hbegin.
  pose proof (deploy_begin_text _ _ _ _ _ _ Hb Hbegin) as Hnf.
  destruct (deploy_begin_cases _ _ _ _ _ _ Hbegin)
    as [(r & -> & _ & _ & _ & _ & Hlocks & _)
       |[(rp & -> & _ & Hlocks & _)
        |[(p & -> & _ & Hfree & Hlocks & _)|(m & -> & _)]]].
  - by eexists _, _.
  - by eexists _, _.
  - assert (∃ o, runDeploy h cfg c = Some o) as [o ->].
    { destruct c as [message|message|sc].
      - unfold runDeploy, run. rewrite spawn_accepts by lia. by eexists.
      - unfold runDeploy. rewrite run_spawn_failure by done. by eexists.
      - destruct (Hc sc eq_refl) as [Hok Hp].
        destruct (run_general h cfg sc HT Hok Hp) as ((t & o & Hs & _) & _).
        unfold runDeploy. rewrite Hs. by eexists. }
    destruct (deploy_finish_releases cfg p o s1) as (r & entry & -> & _).
    eexists _, _. split; [reflexivity|]. cbn [locks].
    rewrite Hlocks, delete_insert_eq. apply delete_id.
    unfold lock_held in Hfree.
    destruct (l !! p_repo p) as [b|] eqn:E; [|done].
    apply Hl in E. congruence.
  - by destruct (Hnf m).
Qed.

Lemma serve_answers_and_restores_witness :
  ∃ r s', serve example_host example_config good_request
            (Runs stubborn_script) (fresh ∅) = Some (Reply r, s') ∧
          locks s' = ∅.
Proof.
  apply serve_answers_and_restores.
  - cbn. unfold DEFAULT_DEPLOY_TIMEOUT_MS. lia.
  - intros sc [= <-]. split; [split; intros ? ? [=] | reflexivity].
  - intros k b H. by rewrite lookup_empty in H.
  - repeat split; right; by eexists.
Defined.

(** X23: [close] is what resolves the promise, and [close] waits for the
    pipes.  With a timeout of 1 ms to 2^31 - 1 ms, a script that has left
    a process behind which holds the pipes for ever never lets the
    promise settle, whether it exits by itself, on SIGTERM or on SIGKILL:
    once the timers have run nothing is left to happen, the request that
    launched it is never answered and its lock is never released. *)
Theorem a_held_pipe_is_a_hang h cfg sc :
  1 <= deployTimeoutMs cfg <= 2147483647 → times_ok sc →
  sc_pipes_free sc = None →
  let final := run h cfg (Runs sc) in
  rs_settled (fst final) = None ∧ pending_events final = [] ∧
  runDeploy h cfg (Runs sc) = None ∧
  ∀ req l p s1,
    deploy_begin h cfg req (fresh l) = (Next p, s1) →
    serve h cfg req (Runs sc) (fresh l) = None ∧
    locks s1 !! p_repo p = Some true.
Proof.
  intros HT [He Hd] Hp final.
  assert (Hrun : rs_settled (fst final) = None ∧ pending_events final = []).
  { subst final.
    destruct sc as [chunks [[e code]|] [[d c]|] free];
      simpl in He, Hd, Hp; subst free;
      try specialize (He _ _ eq_refl); try specialize (Hd _ _ eq_refl).
    - destruct (Z.le_gt_cases e (deployTimeoutMs cfg)),
               (Z.le_gt_cases e (deployTimeoutMs cfg + d)),
               (Z.le_gt_cases e (deployTimeoutMs cfg + 5000)),
               (Z.le_gt_cases d 5000), (Z.eq_dec d 0);
        try lia; start_run; repeat turn; quiesce; by cbn.
    - destruct (Z.le_gt_cases e (deployTimeoutMs cfg)),
               (Z.le_gt_cases e (deployTimeoutMs cfg + 5000));
        try lia; start_run; repeat turn; quiesce; by cbn.
    - destruct (Z.le_gt_cases d 5000), (Z.eq_dec d 0);
        try lia; start_run; repeat turn; quiesce; by cbn.
    - start_run; repeat turn; quiesce; by cbn. }
  destruct Hrun as [Hs Hq].
  assert (Hnone : runDeploy h cfg (Runs sc) = None).
  { unfold runDeploy. fold final. by rewrite Hs. }
  split; [exact Hs|]. split; [exact Hq|]. split; [exact Hnone|].
  intros req l p s1 Hb. unfold serve. rewrite Hb, Hnone.
  split; [reflexivity|].
  destruct (deploy_begin_cases _ _ _ _ _ _ Hb)
    as [(r & ? & _)|[(rp & ? & _)
       |[(p' & [= <-] & _ & _ & -> & _)|(m & ? & _)]]];
    [discriminate..| |discriminate].
  apply lookup_insert_eq.
Qed.

Lemma lingering_script_times_ok : times_ok lingering_script.
Proof. split; [intros ? ? [= <- _] | intros ? ? [= <- _]]; lia. Qed.

Lemma a_held_pipe_is_a_hang_witness :
  (1 <= deployTimeoutMs example_config <= 2147483647) ∧
  serve example_host example_config good_request (Runs lingering_script)
    (fresh ∅) = None.
Proof.
  assert (HT : 1 <= deployTimeoutMs example_config <= 2147483647)
    by (cbn; unfold DEFAULT_DEPLOY_TIMEOUT_MS; lia).
  split; [exact HT|].
  destruct (a_held_pipe_is_a_hang example_host example_config
              lingering_script HT lingering_script_times_ok eq_refl)
    as (_ & _ & _ & H).
  assert (Hb : deploy_begin example_host example_config good_request
                 (fresh ∅)
               = (Next good_pending,
                  snd (deploy_begin example_host example_config
                         good_request (fresh ∅)))) by reflexivity.
  exact (proj1 (H _ _ _ _ Hb)).
Defined.

(** X24: a negative [DEPLOY_TIMEOUT_MS] is kept by the configuration, and
    [spawn] refuses it: the exception leaves the executor of the promise
    before a process, a listener or a timer exists, so whatever the
    script is, it is never started, no signal is sent, and every request
    that gets as far as the launch is answered 500 with the message of
    the [RangeError], its lock released. *)
Theorem negative_timeout_fails_every_launch h cfg c :
  deployTimeoutMs cfg < 0 →
  let T := deployTimeoutMs cfg in
  int_or_default (Some T) DEFAULT_DEPLOY_TIMEOUT_MS = T ∧
  run h cfg c = (settle 0 (Rejected (range_error h T)) entered, no_process) ∧
  runDeploy h cfg c = Some (Rejected (range_error h T)) ∧
  signals_sent (fst (run h cfg c)) = [] ∧
  ∀ p s,
    deploy_finish cfg p (Rejected (range_error h T)) s
    = (Reply {| status := 500; ok := false;
                r_repo := Some (VString (p_repo p));
                r_image := Some (p_image p); r_tag := Some (p_tag p);
                output := None; error := Some (range_error h T) |},
       {| locks := delete (p_repo p) (locks s);
          log := log s ++ [LogError (p_reqId p) (range_error h T);
                           LockRelease (p_repo p)] |}).
Proof.
  intros HT T. subst T.
  assert (Hrun : run h cfg c
                 = (settle 0 (Rejected (range_error h (deployTimeoutMs cfg)))
                      entered, no_process)).
  { unfold run, spawn_refuses.
    by destruct (Z.ltb_spec (deployTimeoutMs cfg) 0); [|lia]. }
  split.
  { unfold int_or_default.
    by destruct (Z.eqb_spec (deployTimeoutMs cfg) 0); [lia|]. }
  split; [exact Hrun|]. unfold runDeploy. rewrite Hrun.
  split; [reflexivity|]. split; [reflexivity|].
  intros p s. unfold deploy_finish, try_finally, shape_response, release,
    releaseLock. handler_unfold. cbn [fst snd locks log].
  by rewrite <- app_assoc.
Qed.

Lemma negative_timeout_fails_every_launch_witness :
  runDeploy example_host
    {| appsRoot := lit "/home/apps"; allowlist := None;
       deployTimeoutMs := -5; maxOutputChars := 4000;
       cfg_secrets := cfg_secrets example_config |}
    (Runs ok_script)
  = Some (Rejected (lit "ERR_OUT_OF_RANGE")).
Proof.
  refine (proj1 (proj2 (proj2
    (negative_timeout_fails_every_launch example_host _ (Runs ok_script)
       _)))).
  cbn. lia.
Defined.

End Runner.

(** ** End to end *)

(** The three end-to-end cases of the specification. *)
Example end_to_end_success :
  fst <$> serve example_host example_config good_request (Runs ok_script)
            (fresh ∅)
  = Some (Reply {| status := 200; ok := true;
                   r_repo := Some (VString (lit "sporty"));
                   r_image := Some (VString (lit "ghcr.io/tihlde/sporty"));
                   r_tag := Some (VString (lit "latest"));
                   output := Some (lit "OK"); error := None |}).
Proof. vm_compute. reflexivity. Qed.

Example end_to_end_busy :
  serve example_host example_config good_request (Runs ok_script)
    (fresh busy_locks)
  = Some (Reply (error_response 409
                   (lit "Deploy already in progress for sporty")),
          {| locks := busy_locks;
             log := [FsExists (lit "/home/apps/sporty");
                     FsStat (lit "/home/apps/sporty");
                     FsExists (lit "/home/apps/sporty/deploy.sh");
                     FsAccess (lit "/home/apps/sporty/deploy.sh");
                     LockAcquire (lit "sporty") false] |}).
Proof. reflexivity. Qed.

Example end_to_end_not_allowlisted :
  serve example_host example_config unlisted_request (Runs ok_script)
    (fresh ∅)
  = Some (Reply (error_response 403 (lit "Repo not in allowlist")), fresh ∅).
Proof. reflexivity. Qed.

(* ===================================================================== *)
(** * Further properties                                                  *)
(* ===================================================================== *)

(** ** Image and environment checks *)

Lemma in_image_class c : in_class image_class c = true ↔ image_char c.
Proof.
  unfold in_class, image_class, image_char, range, single, cu; simpl.
  rewrite !orb_true_iff, !andb_true_iff, !N.leb_le. lia.
Qed.

Lemma strip_prefix_spec p : ∀ s r,
  strip_prefix p s = Some r ↔ s = p ++ r.
Proof.
  induction p as [|a p IH]; intros s r; simpl.
  - split; congruence.
  - destruct s as [|b s]; [split; discriminate|].
    destruct (N.eqb_spec a b) as [->|Hne].
    + rewrite IH. split; [by intros -> | by intros [= ->]].
    + split; [discriminate | intros [= ? _]; congruence].
Qed.

(** X1: [IMAGE_RE] accepts exactly the strings made of [ghcr.io/] and 1
    to 256 characters of [[a-z0-9._/-]]: no other registry, no upper
    case, no colon, no white space. *)
Theorem validateImageRef_exact s :
  validateImageRef s = true ↔
  ∃ path, s = lit "ghcr.io/" ++ path ∧
          (1 ≤ length path ≤ 256)%nat ∧ Forall image_char path.
Proof.
  unfold validateImageRef, regex_test, IMAGE_RE.
  change (match_here [Lit (lit "ghcr.io/"); Class image_class 1 256] s)
    with (match strip_prefix (lit "ghcr.io/") s with
          | Some s' => repeat_class image_class falsy 1 256 s'
          | None => false
          end).
  destruct (strip_prefix (lit "ghcr.io/") s) as [path|] eqn:E.
  - apply strip_prefix_spec in E as ->.
    rewrite repeat_class_to_end, forallb_forall. split.
    + intros [Hlen Hall]. exists path. split; [done|]. split; [done|].
      apply Forall_forall. intros c Hc.
      apply in_image_class, Hall. by apply list_elem_of_In.
    + intros (path' & E & Hlen & Hall). apply app_inv_head in E as <-.
      split; [done|]. intros c Hc. rewrite Forall_forall in Hall.
      apply in_image_class, Hall. by apply list_elem_of_In.
  - split; [discriminate|]. intros (path & -> & _).
    assert (H : strip_prefix (lit "ghcr.io/") (lit "ghcr.io/" ++ path)
                = Some path) by by apply strip_prefix_spec.
    congruence.
Qed.

Lemma ENVS_has_spec e :
  ENVS_has e = true ↔ e = lit "prod" ∨ e = lit "dev" ∨ e = [].
Proof.
  unfold ENVS_has, ENVS, str_eqb. cbn [existsb].
  rewrite !orb_true_iff, !bool_decide_eq_true.
  split; [intros [?|[?|[?|?]]]; [auto..|discriminate] | intros [?|[?|?]]; auto].
Qed.

(** X2: the environment check passes exactly when the field is falsy
    (absent, [null], [false], the number 0 or the empty string) or is the
    string ["prod"] or ["dev"]: a falsy field counts as the empty string,
    and the comparison is exact, so [Prod], [true], a number other than 0,
    an array and an object are rejected. *)
Theorem environment_accepted b :
  ENVS_accepts (env_of b) = true ↔
  truthy (environment b) = false ∨
  environment b = VString (lit "prod") ∨ environment b = VString (lit "dev").
Proof.
  unfold env_of, or_val. destruct (truthy (environment b)) eqn:Et.
  - destruct (environment b) as [| | | |e| |]; cbn [ENVS_accepts];
      try (split; [discriminate | intros [?|[?|?]]; discriminate]).
    rewrite ENVS_has_spec. split.
    + intros [-> | [-> | ->]]; [by right; left | by right; right | done].
    + intros [? | [[= ->] | [= ->]]]; [done | by left | by right; left].
  - split; [by left | reflexivity].
Qed.

(** ** Size of the response *)

(** X3: after a run that closed, the text of the response is a suffix of
    the captured stdout or stderr, and with a budget of at least 1 it is
    no longer than the budget; after a rejection (a spawn failure, say)
    the message is passed on as it is, not cut to the budget. *)
Theorem response_text_is_bounded cfg p o s r s' :
  deploy_finish cfg p o s = (Reply r, s') →
  match o with
  | Resolved code out err =>
      ∀ text, output r = Some text ∨ error r = Some text →
        (text `suffix_of` out ∨ text `suffix_of` err) ∧
        ((1 <= maxOutputChars cfg)%Z →
         (Z.of_nat (length text) <= maxOutputChars cfg)%Z)
  | Rejected message => output r = None ∧ error r = Some message
  end.
Proof.
  unfold deploy_finish, try_finally, shape_response, release.
  handler_unfold. destruct o as [code out err|message]; cbv beta iota zeta.
  - destruct (exit_code_is_zero code); intros [= <- _] text; cbn;
      intros [[=]|[=]]; subst text.
    + split; [left; apply tail_suffix | apply tail_bounded].
    + split; [|apply tail_bounded].
      unfold or_else. destruct (falsy err);
        [left | right]; apply tail_suffix.
  - intros [= <- _]. done.
Qed.

Lemma response_text_is_bounded_witness :
  deploy_finish example_config good_pending
    (Resolved (Some 1%Z) (lit "pulling") (lit "no such image")) (fresh ∅)
  = (Reply {| status := 500; ok := false;
              r_repo := Some (VString (lit "sporty"));
              r_image := Some (VString (lit "ghcr.io/tihlde/sporty"));
              r_tag := Some (VString (lit "latest"));
              output := None; error := Some (lit "no such image") |},
     snd (deploy_finish example_config good_pending
            (Resolved (Some 1%Z) (lit "pulling") (lit "no such image"))
            (fresh ∅))) ∧
  (Z.of_nat (length (lit "no such image")) <= 4000)%Z.
Proof.
  assert (H : deploy_finish example_config good_pending
    (Resolved (Some 1%Z) (lit "pulling") (lit "no such image")) (fresh ∅)
  = (Reply {| status := 500; ok := false;
              r_repo := Some (VString (lit "sporty"));
              r_image := Some (VString (lit "ghcr.io/tihlde/sporty"));
              r_tag := Some (VString (lit "latest"));
              output := None; error := Some (lit "no such image") |},
     snd (deploy_finish example_config good_pending
            (Resolved (Some 1%Z) (lit "pulling") (lit "no such image"))
            (fresh ∅)))) by reflexivity.
  split; [exact H|].
  destruct (response_text_is_bounded _ _ _ _ _ _ H (lit "no such image")
              (or_intror eq_refl)) as [_ Hlen].
  apply Hlen. unfold example_config, DEFAULT_MAX_OUTPUT_CHARS. simpl. lia.
Defined.

(** ** The token *)

Lemma utf8_nonempty c s : utf8 (c :: s) ≠ [].
Proof.
  cbn [utf8]. destruct (c <? 128); [done|]. destruct (c <? 2048); [done|].
  destruct (is_high_surrogate c).
  - destruct s as [|d s]; [done|]. by destruct (is_low_surrogate d).
  - by destruct (is_low_surrogate c).
Qed.

Lemma timingSafeEqual_same s :
  timingSafeEqual (VString s) (VString s) = Normal true.
Proof.
  unfold timingSafeEqual, crypto_timingSafeEqual.
  rewrite Nat.eqb_refl. cbn [negb fst]. f_equal.
  apply N.eqb_eq, byte_diff_zero; done.
Qed.

(** X4: on well-formed strings [timingSafeEqual] is string equality: it
    returns [true] for a string and itself, and for two strings only when
    they are the same. *)
Theorem timingSafeEqual_exact sa sb :
  well_formed sa = true → well_formed sb = true →
  timingSafeEqual (VString sa) (VString sa) = Normal true ∧
  (timingSafeEqual (VString sa) (VString sb) = Normal true ↔ sa = sb).
Proof.
  intros Ha Hb. split; [apply timingSafeEqual_same|].
  rewrite timingSafeEqual_strings by done. split.
  - intros [= H]. by apply bool_decide_eq_true in H.
  - intros ->. by rewrite bool_decide_eq_true_2.
Qed.

Lemma timingSafeEqual_exact_witness :
  well_formed (lit "s3cret") = true ∧
  timingSafeEqual (VString (lit "s3cret")) (VString (lit "s3cret"))
  = Normal true.
Proof.
  split; [reflexivity|].
  exact (proj1 (timingSafeEqual_exact (lit "s3cret") (lit "s3cret")
                  eq_refl eq_refl)).
Defined.

Lemma authorized_secret cfg :
  deployReceiverToken (cfg_secrets cfg) ≠ [] →
  authorized cfg (VString (deployReceiverToken (cfg_secrets cfg))) = true.
Proof.
  intros H. unfold authorized. rewrite timingSafeEqual_same.
  cbn [truthy]. by destruct (deployReceiverToken (cfg_secrets cfg)).
Qed.

Lemma authorized_empty_secret cfg token :
  deployReceiverToken (cfg_secrets cfg) = [] →
  authorized cfg token = false.
Proof.
  intros E. unfold authorized. rewrite E.
  destruct token as [| | | |s| |]; try reflexivity;
    try (cbn [truthy]; apply andb_false_r).
  destruct s as [|c s]; [reflexivity|].
  rewrite timingSafeEqual_length_differs; [apply andb_false_r|].
  pose proof (utf8_nonempty c s) as H. change (utf8 []) with (@nil N).
  destruct (utf8 (c :: s)); [done | discriminate].
Qed.

(** The statuses of the replies of the first part of the handler. *)
Lemma deploy_begin_statuses h cfg req s r s' :
  deploy_begin h cfg req s = (Reply r, s') →
  (status r = 401%Z ∧ authorized cfg (x_deploy_token req) = false) ∨
  status r = 400%Z ∨ status r = 403%Z ∨ status r = 404%Z ∨
  status r = 500%Z ∨ status r = 409%Z.
Proof.
  unfold deploy_begin. rewrite token_rejected_spec.
  handler_paths; reply_end; cbn [status error_response]; auto 10.
  left. split; [done|]. by destruct (authorized cfg (x_deploy_token req)).
Qed.

(** X5: a request that presents the configured token, when that token
    is not empty, is never answered 401. *)
Theorem configured_token_is_accepted h cfg req s r s' :
  deployReceiverToken (cfg_secrets cfg) ≠ [] →
  x_deploy_token req = VString (deployReceiverToken (cfg_secrets cfg)) →
  deploy_begin h cfg req s = (Reply r, s') →
  status r ≠ 401%Z.
Proof.
  intros Hs Ht Hb.
  destruct (deploy_begin_statuses _ _ _ _ _ _ Hb) as [[_ Ha]|H].
  - rewrite Ht, authorized_secret in Ha; done.
  - lia.
Qed.


Lemma configured_token_is_accepted_witness :
  deploy_begin example_host example_config good_request (fresh busy_locks)
  = (Reply (error_response 409
              (lit "Deploy already in progress for sporty")),
     snd (deploy_begin example_host example_config good_request
            (fresh busy_locks))) ∧
  status (error_response 409
            (lit "Deploy already in progress for sporty")) ≠ 401%Z.
Proof.
  assert (H : deploy_begin example_host example_config good_request
                (fresh busy_locks)
  = (Reply (error_response 409
              (lit "Deploy already in progress for sporty")),
     snd (deploy_begin example_host example_config good_request
            (fresh busy_locks)))) by reflexivity.
  split; [exact H|].
  eapply (configured_token_is_accepted example_host example_config
            good_request (fresh busy_locks));
    [intros E; vm_compute in E; discriminate E | reflexivity | exact H].
Defined.

(** X6: when the configured token is empty, every request is answered
    401, whatever token it presents. *)
Theorem empty_secret_rejects_everyone h cfg req s :
  deployReceiverToken (cfg_secrets cfg) = [] →
  deploy_begin h cfg req s
  = (Reply (error_response 401 (lit "Unauthorized")), s).
Proof.
  intros E. by apply deploy_begin_unauthorized, authorized_empty_secret.
Qed.

Lemma empty_secret_rejects_everyone_witness :
  deploy_begin example_host tokenless_config
    (example_request (VString [])
       (example_body "sporty" "ghcr.io/tihlde/sporty" "latest"))
    (fresh ∅)
  = (Reply (error_response 401 (lit "Unauthorized")), fresh ∅).
Proof.
  apply empty_secret_rejects_everyone. reflexivity.
Defined.

(** ** What comes before a launch *)

(** X7: a script is only ever launched for a request that was
    authenticated, whose repo, image, tag and environment passed their
    checks, whose repo is on the allowlist if there is one, whose
    directory and executable [deploy.sh] exist, and whose repository was
    not locked and now is; it is launched as [/bin/bash deploy.sh] in the
    repository's directory with exactly the eight variables of the
    environment contract, the image and the tag in them being the texts
    that were checked. *)
Theorem launch_only_after_every_check h cfg req l res s' call :
  deploy_begin h cfg req (fresh l) = (res, s') →
  Spawn call ∈ log s' →
  ∃ r i t e,
    let b := body_of req in
    let dir := path_join h (appsRoot cfg) r in
    let script := path_join h dir (lit "deploy.sh") in
    (repo b = VString r ∧ ToString (image b) = Normal i ∧
     ToString (tag b) = Normal t ∧ env_of b = VString e ∧
     missing_fields b = false) ∧
    authorized cfg (x_deploy_token req) = true ∧
    (validateRepositoryId r = true ∧ allowlisted cfg (repo b) = true ∧
     validateImageRef i = true ∧ validateTag t = true ∧
     ENVS_has e = true) ∧
    (fs_exists h dir = true ∧ fs_is_directory h dir = true ∧
     fs_exists h script = true ∧ fs_executable h script = true) ∧
    (lock_held r l = false ∧ locks s' !! r = Some true) ∧
    call = spawn_options cfg script dir r i t e ∧
    sp_command call = lit "/bin/bash" ∧ sp_args call = [script] ∧
    sp_cwd call = dir ∧ fst <$> sp_env call = script_variables.
Proof.
  intros H Hin. revert Hin. revert H.
  unfold deploy_begin. rewrite token_rejected_spec.
  unfold env_of, missing_fields, allowlisted.
  handler_paths; path_end; intros Hin; try (exfalso; not_in_log Hin).
  repeat (apply elem_of_cons in Hin as [Hin|Hin]; [try discriminate|]);
    [|by apply elem_of_nil in Hin].
  injection Hin as ->.
  repeat match goal with
         | H : negb _ = false |- _ => apply negb_false_iff in H
         end.
  match goal with
  | H : ENVS_accepts _ = true |- _ =>
      apply ENVS_accepts_string in H as (e & He & Henv)
  end.
  match goal with
  | H : ToString (VString ?r) = Normal ?a |- _ => injection H as <-
  end.
  rewrite He in *.
  match goal with
  | H : ToString (VString e) = Normal ?a |- _ => injection H as <-
  end.
  eexists _, _, _, e. cbv zeta.
  split; [by repeat split|]. split; [done|]. split.
  { unfold validateRepositoryId, validateImageRef, validateTag.
    repeat split; try done. destruct (allowlist cfg); [|done].
    by apply negb_false_iff. }
  split; [done|]. split.
  { split; [done | apply lookup_insert_eq]. }
  repeat split; reflexivity.
Qed.

Lemma launch_only_after_every_check_witness :
  ∃ call,
    Spawn call ∈ log (snd (deploy_begin example_host example_config
                             good_request (fresh ∅))) ∧
    sp_cwd call = lit "/home/apps/sporty" ∧
    fst <$> sp_env call = script_variables.
Proof.
  set (out := deploy_begin example_host example_config good_request (fresh ∅)).
  set (call := spawn_options example_config (lit "/home/apps/sporty/deploy.sh")
                 (lit "/home/apps/sporty") (lit "sporty")
                 (lit "ghcr.io/tihlde/sporty") (lit "latest") (lit "prod")).
  assert (Hin : Spawn call ∈ log (snd out)).
  { apply (list_elem_of_lookup_2 _ 6). reflexivity. }
  exists call. split; [exact Hin|].
  destruct (launch_only_after_every_check example_host example_config
              good_request ∅ (fst out) (snd out) call
              (surjective_pairing out) Hin)
    as (r & i & t & e & _ & _ & _ & _ & _ & _ & _ & _ & Hcwd & Henv).
  split; [reflexivity | exact Henv].
Defined.

(** X8: a response with status 400, 401 or 403 is sent before the file
    system or the lock table is looked at: the state is as it was. *)
Theorem early_rejections_touch_nothing h cfg req s r s' :
  deploy_begin h cfg req s = (Reply r, s') →
  status r = 400%Z ∨ status r = 401%Z ∨ status r = 403%Z →
  s' = s.
Proof.
  intros H Hst. revert Hst. revert H.
  unfold deploy_begin. rewrite token_rejected_spec.
  destruct s as [l lg].
  handler_paths; reply_end; cbn [status error_response]; intros Hst;
    try done; lia.
Qed.

Lemma early_rejections_touch_nothing_witness :
  snd (deploy_begin example_host example_config unlisted_request
         (fresh busy_locks)) = fresh busy_locks.
Proof.
  apply (early_rejections_touch_nothing example_host example_config
           unlisted_request (fresh busy_locks)
           (error_response 403 (lit "Repo not in allowlist"))).
  - reflexivity.
  - right; right; reflexivity.
Defined.

(** ** The file checks *)

Lemma holds_true c : holds c = true → c = Normal true.
Proof. destruct c as [[|]|]; by intros. Qed.

Lemma passes_validation_spec cfg req :
  passes_validation cfg req = true →
  let b := body_of req in
  authorized cfg (x_deploy_token req) = true ∧
  negb (truthy (repo b)) || negb (truthy (image b))
    || negb (truthy (tag b)) = false ∧
  RegExp_test REPO_SLUG_RE (repo b) = Normal true ∧
  RegExp_test IMAGE_RE (image b) = Normal true ∧
  RegExp_test TAG_RE (tag b) = Normal true ∧
  ENVS_accepts (or_val (environment b) (VString [])) = true ∧
  match allowlist cfg with
  | Some items => negb (includes items (repo b))
  | None => false
  end = false.
Proof.
  unfold passes_validation, syntax_ok, missing_fields, allowlisted, env_of.
  intros H.
  apply andb_prop in H as [H Ha]. apply andb_prop in H as [H Hs].
  apply andb_prop in H as [H Hm]. apply andb_prop in Hs as [Hs He].
  apply andb_prop in Hs as [Hs Ht]. apply andb_prop in Hs as [Hs Hi].
  apply negb_true_iff in Hm. apply holds_true in Hs, Hi, Ht.
  repeat split; try done.
  destruct (allowlist cfg); [by rewrite Ha | done].
Qed.

(** The first part of the handler, for a request that passed validation:
    only the paths, the file checks, the lock and the launch are left. *)
Ltac validated Hv :=
  destruct (passes_validation_spec _ _ Hv)
    as (Hv1 & Hv2 & Hv3 & Hv4 & Hv5 & Hv6 & Hv7);
  unfold deploy_begin; rewrite token_rejected_spec;
  rewrite Hv1, Hv2, Hv3, Hv7, Hv4, Hv5, Hv6;
  handler_unfold; unfold path_join_val;
  cbv beta iota zeta; cbn [negb locks log app].

(** X9: for a request that passed validation and whose repo is a string,
    the file checks run in the order directory exists, is a directory,
    script exists, script is executable; the first that fails gives 404,
    404, 404 or 500 (with the server path in the 404 messages), the later
    ones are not made, the lock table is left alone and nothing is
    launched.  A repo that is not a string (the number 123 passes every
    check through its text) makes [path.join] throw: the handler ends
    with that exception, before any file check, and sends nothing. *)
Theorem file_checks_in_order h cfg req l :
  passes_validation cfg req = true →
  let out := deploy_begin h cfg req (fresh l) in
  (∀ r, repo (body_of req) = VString r →
     let dir := path_join h (appsRoot cfg) r in
     let script := path_join h dir (lit "deploy.sh") in
     let not_found :=
       error_response 404 (lit "Repo directory not found: " ++ dir) in
     (fs_exists h dir = false →
      out = (Reply not_found, {| locks := l; log := [FsExists dir] |})) ∧
     (fs_exists h dir = true → fs_is_directory h dir = false →
      out = (Reply not_found,
             {| locks := l; log := [FsExists dir; FsStat dir] |})) ∧
     (fs_exists h dir = true → fs_is_directory h dir = true →
      fs_exists h script = false →
      out = (Reply (error_response 404
                      (lit "deploy.sh not found in " ++ dir)),
             {| locks := l;
                log := [FsExists dir; FsStat dir; FsExists script] |})) ∧
     (fs_exists h dir = true → fs_is_directory h dir = true →
      fs_exists h script = true → fs_executable h script = false →
      out = (Reply (error_response 500 (lit "deploy.sh is not executable")),
             {| locks := l;
                log := [FsExists dir; FsStat dir; FsExists script;
                        FsAccess script] |}))) ∧
  ((∀ r, repo (body_of req) ≠ VString r) →
   out = (Fault (path_error h (repo (body_of req))), fresh l)).
Proof.
  intros Hv out. subst out. split.
  - intros r Hr dir script not_found. subst not_found.
    repeat split.
    + intros E1. validated Hv. rewrite Hr. cbv beta iota zeta.
      fold dir. by rewrite E1.
    + intros E1 E2. validated Hv. rewrite Hr. cbv beta iota zeta.
      fold dir. rewrite E1. cbn [negb orb locks log app]. by rewrite E2.
    + intros E1 E2 E3. validated Hv. rewrite Hr. cbv beta iota zeta.
      fold dir. fold script.
      rewrite E1. cbn [negb orb locks log app]. rewrite E2.
      cbn [negb orb locks log app]. by rewrite E3.
    + intros E1 E2 E3 E4. validated Hv. rewrite Hr. cbv beta iota zeta.
      fold dir. fold script.
      rewrite E1. cbn [negb orb locks log app]. rewrite E2.
      cbn [negb orb locks log app]. rewrite E3.
      cbn [negb orb locks log app]. by rewrite E4.
  - intros Hn. validated Hv.
    destruct (repo (body_of req)) as [| | | |r| |]; try reflexivity.
    by destruct (Hn r).
Qed.

Lemma file_checks_in_order_witness :
  passes_validation example_config good_request = true ∧
  deploy_begin bare_host example_config good_request (fresh ∅)
  = (Reply (error_response 404
              (lit "Repo directory not found: /home/apps/sporty")),
     {| locks := ∅; log := [FsExists (lit "/home/apps/sporty")] |}).
Proof.
  assert (Hv : passes_validation example_config good_request = true)
    by reflexivity.
  split; [exact Hv|].
  destruct (file_checks_in_order bare_host example_config good_request ∅ Hv)
    as (H & _).
  destruct (H (lit "sporty") eq_refl) as (H1 & _).
  apply H1. reflexivity.
Defined.

(** X10: an allowlist that is the empty array is not the same as no
    allowlist: every authenticated request with a well-formed repo is
    answered 403. *)
Theorem empty_allowlist_denies_every_repository h cfg req s :
  allowlist cfg = Some [] →
  authorized cfg (x_deploy_token req) = true →
  missing_fields (body_of req) = false →
  RegExp_test REPO_SLUG_RE (repo (body_of req)) = Normal true →
  deploy_begin h cfg req s
  = (Reply (error_response 403 (lit "Repo not in allowlist")), s).
Proof.
  intros Ha Hauth Hm Hs.
  unfold deploy_begin. rewrite token_rejected_spec.
  unfold missing_fields in *.
  by rewrite Hauth, Hm, Hs, Ha.
Qed.

Lemma empty_allowlist_denies_every_repository_witness :
  deploy_begin example_host closed_config good_request (fresh ∅)
  = (Reply (error_response 403 (lit "Repo not in allowlist")), fresh ∅).
Proof.
  apply empty_allowlist_denies_every_repository; reflexivity.
Defined.

(** ** The secrets of the script *)

Lemma deploy_begin_without_script_secrets h c1 c2 req s :
  same_but_script_secrets c1 c2 →
  fst (deploy_begin h c1 req s) = fst (deploy_begin h c2 req s) ∧
  locks (snd (deploy_begin h c1 req s))
  = locks (snd (deploy_begin h c2 req s)) ∧
  ∃ n1 n2, log (snd (deploy_begin h c1 req s)) = log s ++ n1 ∧
           log (snd (deploy_begin h c2 req s)) = log s ++ n2 ∧
           redact <$> n1 = redact <$> n2.
Proof.
  intros (Ea & El & Et & Em & Ek).
  destruct c1 as [a1 l1 t1 m1 [v1 g1 k1]], c2 as [a2 l2 t2 m2 [v2 g2 k2]].
  cbn in Ea, El, Et, Em, Ek. subst a2 l2 t2 m2 k2.
  unfold deploy_begin. rewrite !token_rejected_spec.
  unfold authorized. cbn [cfg_secrets deployReceiverToken appsRoot allowlist].
  handler_unfold. unfold acquireLock, RegExp_test, path_join_val.
  cbv beta iota zeta. cbn [locks log app negb orb andb].
  repeat both_sides;
    (split; [reflexivity|]; split; [reflexivity|]);
    rewrite <- ?app_assoc; cbn [app];
    try (by exists [], []; rewrite app_nil_r);
    try (eexists _, _; split; [reflexivity|]; split; reflexivity).
Qed.

(** X11: the handler hands the Vaultwarden password and the GHCR token
    to nothing but the environment of the script.  With two
    configurations that differ only in them, and the launch and the run
    of the script ending the same way [o] (which the script, that sees
    them, may make depend on them), a request gets the same response,
    leaves the same lock table and logs the same effects, the two
    variables of a launch apart. *)
Theorem script_secrets_stay_out h c1 c2 req o s :
  same_but_script_secrets c1 c2 →
  let out1 := deploy h c1 req o s in
  let out2 := deploy h c2 req o s in
  fst out1 = fst out2 ∧ locks (snd out1) = locks (snd out2) ∧
  ∃ n1 n2, log (snd out1) = log s ++ n1 ∧ log (snd out2) = log s ++ n2 ∧
           redact <$> n1 = redact <$> n2.
Proof.
  intros Hc out1 out2. subst out1 out2.
  destruct (deploy_begin_without_script_secrets h c1 c2 req s Hc)
    as (Hr & Hl & n1 & n2 & H1 & H2 & Hn).
  destruct Hc as (_ & _ & _ & Em & _).
  unfold deploy, mbind, handler_bind.
  destruct (deploy_begin h c1 req s) as [r1 s1],
           (deploy_begin h c2 req s) as [r2 s2].
  cbn [fst snd] in Hr, Hl, H1, H2. subst r2.
  destruct r1 as [r|m|p]; cbn [fst snd]; [by eauto 10..|].
  unfold deploy_finish, try_finally, shape_response, release, releaseLock.
  handler_unfold.
  destruct o as [code out err|message]; cbv beta iota zeta;
    [destruct (exit_code_is_zero code)|]; cbn [fst snd locks log];
    rewrite ?Em, Hl, H1, H2;
    (split; [reflexivity|]; split; [reflexivity|]);
    rewrite <- !app_assoc;
    (eexists _, _; split; [reflexivity|]; split; [reflexivity|]);
    rewrite !fmap_app, Hn; reflexivity.
Qed.

Lemma script_secrets_stay_out_witness :
  same_but_script_secrets example_config rotated_config ∧
  fst (deploy example_host example_config good_request
         (Resolved (Some 0%Z) (lit "OK") []) (fresh ∅))
  = fst (deploy example_host rotated_config good_request
           (Resolved (Some 0%Z) (lit "OK") []) (fresh ∅)).
Proof.
  assert (H : same_but_script_secrets example_config rotated_config)
    by (repeat split).
  split; [exact H|].
  exact (proj1 (script_secrets_stay_out example_host _ _ good_request
                  (Resolved (Some 0%Z) (lit "OK") []) (fresh ∅) H)).
Defined.

(** ** Requests in flight together *)

Lemma NoDup_delete_at {A} (l : list A) i x :
  NoDup l → l !! i = Some x →
  NoDup (delete i l) ∧ ∀ y, y ∈ delete i l ↔ y ∈ l ∧ y ≠ x.
Proof.
  intros Hnd Hi. rewrite delete_take_drop.
  pose proof (take_drop_middle l i x Hi) as E.
  set (l1 := take i l) in *. set (l2 := drop (S i) l) in *.
  clearbody l1 l2. subst l.
  apply NoDup_app in Hnd as (H1 & H2 & H3).
  apply NoDup_cons in H3 as [H3 H4].
  split.
  - apply NoDup_app. split; [done|]. split; [|done].
    intros y Hy Hy'. apply (H2 y Hy). by right.
  - intros y. rewrite !elem_of_app, elem_of_cons. split.
    + intros [Hy|Hy].
      * split; [by left|]. intros ->. apply (H2 x Hy). by left.
      * split; [by right; right|]. by intros ->.
    + intros [[Hy|[->|Hy]] Hne]; [by left|done|by right].
Qed.

Lemma server_turn_ok cfg sv t :
  calm t → server_ok sv → server_ok (server_turn cfg sv t).
Proof.
  intros Hcalm [Hnd Hl]. destruct t as [h req|i o]; cbn [server_turn].
  - destruct (deploy_begin h cfg req (fresh (sv_locks sv))) as [res s] eqn:Hb.
    destruct (deploy_begin_cases _ _ _ _ _ _ Hb)
      as [(r & -> & _ & _ & _ & _ & Hlocks & _)
         |[(rp & -> & _ & Hlocks & _)
          |[(p & -> & _ & Hfree & Hlocks & _)
           |(m & -> & [[Hlocks _]|(r & checks & _ & _ & Hthrow & _)])]]].
    + split; cbn [sv_locks sv_waiting]; [done | by rewrite Hlocks].
    + split; cbn [sv_locks sv_waiting]; [done | by rewrite Hlocks].
    + assert (Hnew : p_repo p ∉ p_repo <$> sv_waiting sv).
      { intros Hin. unfold lock_held in Hfree. rewrite Hl in Hfree.
        by rewrite decide_True in Hfree. }
      split; cbn [sv_locks sv_waiting]; rewrite fmap_app.
      * apply NoDup_app. split; [done|]. split; [|apply NoDup_singleton].
        intros r Hr ->%list_elem_of_singleton. done.
      * intros r. rewrite Hlocks, lookup_insert.
        destruct (decide (p_repo p = r)) as [<-|Hne].
        -- rewrite decide_True; [done|].
           apply elem_of_app. right. by left.
        -- rewrite Hl. destruct (decide (r ∈ p_repo <$> sv_waiting sv)).
           ++ rewrite decide_True; [done|]. apply elem_of_app. by left.
           ++ rewrite decide_False; [done|].
              intros [?|?%list_elem_of_singleton]%elem_of_app; congruence.
    + split; cbn [sv_locks sv_waiting]; [done | by rewrite Hlocks].
    + by destruct (Hcalm m).
  - destruct (sv_waiting sv !! i) as [p|] eqn:Hi; [|done].
    destruct (deploy_finish_releases cfg p o (fresh (sv_locks sv)))
      as (r & entry & -> & _).
    assert (Hi' : (p_repo <$> sv_waiting sv) !! i = Some (p_repo p))
      by by rewrite list_lookup_fmap, Hi.
    destruct (NoDup_delete_at _ _ _ Hnd Hi') as [Hnd' Hin'].
    split; cbn [sv_locks sv_waiting snd locks fresh];
      rewrite list_fmap_delete; [done|].
    intros k. rewrite lookup_delete.
    destruct (decide (p_repo p = k)) as [<-|Hne].
    + rewrite decide_False; [done|]. rewrite Hin'. by intros [_ ?].
    + rewrite Hl. destruct (decide (k ∈ p_repo <$> sv_waiting sv)).
      * rewrite decide_True; [done|]. apply Hin'. split; [done|congruence].
      * rewrite decide_False; [done|]. rewrite Hin'. by intros [? _].
Qed.

Lemma server_turn_safe cfg sv t :
  server_safe sv → server_safe (server_turn cfg sv t).
Proof.
  intros [Hnd Hl]. destruct t as [h req|i o]; cbn [server_turn].
  - destruct (deploy_begin h cfg req (fresh (sv_locks sv))) as [res s] eqn:Hb.
    destruct (deploy_begin_cases _ _ _ _ _ _ Hb)
      as [(r & -> & _ & _ & _ & _ & Hlocks & _)
         |[(rp & -> & _ & Hlocks & _)
          |[(p & -> & _ & Hfree & Hlocks & _)
           |(m & -> & [[Hlocks _]
                      |(r & checks & _ & Hfree & _ & Hlocks & _)])]]].
    + split; cbn [sv_locks sv_waiting]; [done | by rewrite Hlocks].
    + split; cbn [sv_locks sv_waiting]; [done | by rewrite Hlocks].
    + assert (Hnew : p_repo p ∉ p_repo <$> sv_waiting sv).
      { intros Hin. unfold lock_held in Hfree. by rewrite (Hl _ Hin) in Hfree. }
      split; cbn [sv_locks sv_waiting]; rewrite fmap_app.
      * apply NoDup_app. split; [done|]. split; [|apply NoDup_singleton].
        intros r Hr ->%list_elem_of_singleton. done.
      * intros r Hr. rewrite Hlocks, lookup_insert.
        destruct (decide (p_repo p = r)) as [<-|Hne]; [done|].
        apply elem_of_app in Hr as [Hr|Hr%list_elem_of_singleton];
          [by apply Hl | congruence].
    + split; cbn [sv_locks sv_waiting]; [done | by rewrite Hlocks].
    + split; cbn [sv_locks sv_waiting]; [done|].
      intros k Hk. rewrite Hlocks, lookup_insert.
      destruct (decide (r = k)); [done | by apply Hl].
  - destruct (sv_waiting sv !! i) as [p|] eqn:Hi; [|done].
    destruct (deploy_finish_releases cfg p o (fresh (sv_locks sv)))
      as (r & entry & -> & _).
    assert (Hi' : (p_repo <$> sv_waiting sv) !! i = Some (p_repo p))
      by by rewrite list_lookup_fmap, Hi.
    destruct (NoDup_delete_at _ _ _ Hnd Hi') as [Hnd' Hin'].
    split; cbn [sv_locks sv_waiting snd locks fresh];
      rewrite list_fmap_delete; [done|].
    intros k [Hk Hne]%Hin'. rewrite lookup_delete_ne by congruence.
    by apply Hl.
Qed.

(** X12: however arrivals and settlements interleave, no two waiting
    requests are for the same repository, the repository of a waiting
    request is locked, and a request for a locked repository never gets
    as far as a launch.  As long as no request made the log line of the
    handler throw, the converse holds as well: a repository is locked
    only while a request for it waits. *)
Theorem one_deploy_per_repository cfg turns :
  let sv := server_run cfg turns in
  NoDup (p_repo <$> sv_waiting sv) ∧
  (∀ r, r ∈ p_repo <$> sv_waiting sv → lock_held r (sv_locks sv) = true) ∧
  (∀ h req r, repo (body_of req) = VString r →
     lock_held r (sv_locks sv) = true →
     ∀ p s, deploy_begin h cfg req (fresh (sv_locks sv)) ≠ (Next p, s)) ∧
  (Forall calm turns →
   ∀ r, lock_held r (sv_locks sv) = true → r ∈ p_repo <$> sv_waiting sv).
Proof.
  intros sv.
  assert (Hsafe : server_safe sv).
  { subst sv. unfold server_run.
    assert (H : server_safe server_start).
    { split; [apply NoDup_nil_2|]. by intros r ?%elem_of_nil. }
    revert H. generalize server_start.
    induction turns as [|t turns IH]; intros sv0 H; [done|].
    cbn [foldl]. apply IH. by apply server_turn_safe. }
  assert (Hok : Forall calm turns → server_ok sv).
  { clear Hsafe. subst sv. unfold server_run.
    assert (H : server_ok server_start).
    { split; [apply NoDup_nil_2|]. intros r. cbn.
      rewrite lookup_empty. rewrite decide_False; [done|].
      by intros ?%elem_of_nil. }
    revert H. generalize server_start.
    induction turns as [|t turns IH]; intros sv0 H Hc; [exact H|].
    apply Forall_cons in Hc as [Ht Hc].
    cbn [foldl]. apply IH; [|done]. by apply server_turn_ok. }
  destruct Hsafe as [Hnd Hl]. split; [done|]. split; [|split].
  - intros r Hr. unfold lock_held. by rewrite (Hl _ Hr).
  - intros h req r Hr Hheld p s Hb.
    destruct (deploy_begin_cases _ _ _ _ _ _ Hb)
      as [(r' & [=] & _)|[(rp & [=] & _)
         |[(p' & [= <-] & Hp & Hfree & _)|(m & [=] & _)]]].
    rewrite Hr in Hp. injection Hp as Hp. congruence.
  - intros Hc r. destruct (Hok Hc) as [_ Hl']. unfold lock_held.
    rewrite Hl'. by destruct (decide (r ∈ p_repo <$> sv_waiting sv)).
Qed.

Lemma one_deploy_per_repository_witness :
  let turns := [Arrives example_host good_request;
                Arrives example_host good_request] in
  let sv := server_run example_config turns in
  Forall calm turns ∧
  p_repo <$> sv_waiting sv = [lit "sporty"] ∧
  (∀ r, lock_held r (sv_locks sv) = true → r = lit "sporty").
Proof.
  intros turns sv.
  assert (Hc : Forall calm turns).
  { repeat apply Forall_cons_2; [..|apply Forall_nil_2]; by intros m. }
  assert (H : p_repo <$> sv_waiting sv = [lit "sporty"]) by reflexivity.
  split; [exact Hc|]. split; [exact H|].
  destruct (one_deploy_per_repository example_config turns)
    as (_ & _ & _ & Hl).
  intros r Hr. apply (Hl Hc) in Hr. fold sv in Hr. rewrite H in Hr.
  by apply list_elem_of_singleton in Hr.
Defined.

(** ** config.js *)

Lemma trim_start_split s :
  ∃ before, s = before ++ trim_start s ∧ forallb is_space before = true ∧
            match head (trim_start s) with
            | Some c => is_space c = false
            | None => True
            end.
Proof.
  induction s as [|c s (before & E & Hb & Hh)]; simpl.
  - by exists [].
  - destruct (is_space c) eqn:Hc.
    + exists (c :: before). simpl. rewrite Hc, Hb. split; [congruence|done].
    + exists []. simpl. by rewrite Hc.
Qed.

Lemma head_reverse {A} (l : list A) : head (reverse l) = last l.
Proof.
  induction l as [|x l IH] using rev_ind; [done|].
  by rewrite reverse_snoc, last_snoc.
Qed.

Lemma last_reverse {A} (l : list A) : last (reverse l) = head l.
Proof. by rewrite <- head_reverse, reverse_involutive. Qed.

Lemma forallb_reverse {A} (f : A → bool) l :
  forallb f (reverse l) = forallb f l.
Proof.
  induction l as [|x l IH]; [done|].
  rewrite reverse_cons, forallb_app, IH. simpl.
  rewrite andb_true_r. apply andb_comm.
Qed.

Lemma trim_end_split s :
  ∃ after, s = trim_end s ++ after ∧ forallb is_space after = true ∧
           match last (trim_end s) with
           | Some c => is_space c = false
           | None => True
           end.
Proof.
  unfold trim_end.
  destruct (trim_start_split (reverse s)) as (before & E & Hb & Hh).
  exists (reverse before). split; [|split].
  - rewrite <- reverse_app, <- E. by rewrite reverse_involutive.
  - by rewrite forallb_reverse.
  - by rewrite last_reverse.
Qed.

Lemma head_app_nonempty {A} (l k : list A) x :
  head l = Some x → head (l ++ k) = Some x.
Proof. by destruct l. Qed.

(** [trim] cuts white space off both ends and nothing else. *)
Lemma trim_split s :
  ∃ before after,
    s = before ++ trim s ++ after ∧
    forallb is_space before = true ∧ forallb is_space after = true ∧
    trimmed (trim s).
Proof.
  unfold trim.
  destruct (trim_start_split s) as (before & E1 & Hb & Hh).
  destruct (trim_end_split (trim_start s)) as (after & E2 & Ha & Hl).
  exists before, after. split; [by rewrite <- E2|].
  split; [done|]. split; [done|]. split; [|done].
  destruct (head (trim_end (trim_start s))) as [c|] eqn:Hc; [|done].
  rewrite E2 in Hh. by rewrite (head_app_nonempty _ _ _ Hc) in Hh.
Qed.

Lemma trim_start_all_space s :
  forallb is_space s = true → trim_start s = [].
Proof.
  induction s as [|c s IH]; [done|]. simpl.
  intros [Hc Hs]%andb_true_iff. rewrite Hc. auto.
Qed.

Lemma trim_all_space s : forallb is_space s = true → trim s = [].
Proof. intros H. unfold trim. by rewrite trim_start_all_space. Qed.

(** X17: [readCredential] throws the systemd hint when
    [CREDENTIALS_DIRECTORY] is unset or empty, throws "Credential file
    not found" with the path when the file is missing, passes on what
    reading throws, and otherwise returns the content of the file with
    the white space at both ends, and nothing else, removed. *)
Theorem readCredential_spec pf name :
  let unset := falsy_opt (getenv pf (lit "CREDENTIALS_DIRECTORY")) in
  let path := credential_path pf name in
  (unset = true → readCredential pf name = Throws credentials_directory_unset) ∧
  (unset = false → fs_exists (pf_host pf) path = false →
   readCredential pf name
   = Throws (lit "Credential file not found: " ++ path)) ∧
  (unset = false → fs_exists (pf_host pf) path = true →
   ∀ message, readFileSync pf path = Throws message →
              readCredential pf name = Throws message) ∧
  (unset = false → fs_exists (pf_host pf) path = true →
   ∀ content, readFileSync pf path = Normal content →
     ∃ value before after,
       readCredential pf name = Normal value ∧
       content = before ++ value ++ after ∧
       forallb is_space before = true ∧ forallb is_space after = true ∧
       trimmed value).
Proof.
  intros unset path. subst unset path.
  unfold readCredential, credential_path. repeat split.
  - by intros ->.
  - by intros -> ->.
  - intros -> -> message ->. reflexivity.
  - intros -> -> content ->. cbn.
    destruct (trim_split content) as (before & after & E & Hb & Ha & Ht).
    by exists (trim content), before, after.
Qed.

Lemma readCredential_spec_witness :
  ∃ value,
    readCredential example_platform (lit "deploy-receiver-token")
    = Normal value ∧ value = lit "s3cret" ∧ trimmed value.
Proof.
  destruct (readCredential_spec example_platform
              (lit "deploy-receiver-token")) as (_ & _ & _ & H).
  destruct (H eq_refl eq_refl _ eq_refl)
    as (value & before & after & Hv & _ & _ & _ & Ht).
  exists value. split; [exact Hv|]. split; [|exact Ht].
  by injection Hv as <-.
Defined.

Lemma or_else_nonempty a d : d ≠ [] → or_else a d ≠ [].
Proof. intros H. unfold or_else. by destruct a. Qed.

Lemma readCredential_normal pf name value :
  readCredential pf name = Normal value →
  falsy_opt (getenv pf (lit "CREDENTIALS_DIRECTORY")) = false.
Proof.
  unfold readCredential.
  by destruct (falsy_opt (getenv pf (lit "CREDENTIALS_DIRECTORY"))).
Qed.

Lemma read_allowlist_normal pf path items :
  read_allowlist pf path = Normal items →
  ∃ raw, readFileSync pf path = Normal raw ∧
         JSON_parse pf raw = Normal (VArray items).
Proof.
  unfold read_allowlist. destruct (readFileSync pf path) as [raw|]; [|done].
  cbn. destruct (JSON_parse pf raw) as [v|] eqn:E; [|done]. cbn.
  destruct v; try done. intros [= ->]. eauto.
Qed.

(** X18: a configuration that [loadConfig] returns is complete: the
    credentials directory is set, each of the three secrets is what
    [readCredential] gives for its file, port, timeout and output budget
    are not 0, the apps root is not empty, and the allowlist is [null]
    exactly when its file does not exist and otherwise the array parsed
    from it. *)
Theorem loaded_config_is_complete pf ld notices :
  loadConfig pf = (Loaded ld, notices) →
  let cfg := ld_config ld in
  let path := allowlist_path pf in
  falsy_opt (getenv pf (lit "CREDENTIALS_DIRECTORY")) = false ∧
  (readCredential pf (lit "vaultwarden-master-password")
   = Normal (vaultwardenMasterPassword (cfg_secrets cfg)) ∧
   readCredential pf (lit "ghcr-pat") = Normal (ghcrPat (cfg_secrets cfg)) ∧
   readCredential pf (lit "deploy-receiver-token")
   = Normal (deployReceiverToken (cfg_secrets cfg))) ∧
  (ld_port ld ≠ 0%Z ∧ deployTimeoutMs cfg ≠ 0%Z ∧
   maxOutputChars cfg ≠ 0%Z ∧ appsRoot cfg ≠ []) ∧
  match allowlist cfg with
  | None =>
      fs_exists (pf_host pf) path = false ∧
      notices = [AllowlistMissing path]
  | Some items =>
      fs_exists (pf_host pf) path = true ∧
      notices = [AllowlistLoaded (length items) path] ∧
      ∃ raw, readFileSync pf path = Normal raw ∧
             JSON_parse pf raw = Normal (VArray items)
  end.
Proof.
  unfold loadConfig, allowlist_path.
  destruct (readCredential pf (lit "vaultwarden-master-password"))
    as [v|] eqn:Hv; [|done].
  destruct (readCredential pf (lit "ghcr-pat")) as [g|] eqn:Hg; [|done].
  destruct (readCredential pf (lit "deploy-receiver-token"))
    as [k|] eqn:Hk; [|done].
  assert (Hnum : ∀ parsed dflt, dflt ≠ 0%Z →
                   int_or_default parsed dflt ≠ 0%Z)
    by apply int_or_default_nonzero.
  destruct (fs_exists (pf_host pf)
              (env_or pf "DEPLOY_ALLOWLIST_PATH" DEFAULT_ALLOWLIST_PATH))
    eqn:Hex.
  - destruct (read_allowlist pf _) as [items|] eqn:Hr; [|done].
    intros [= <- <-]. cbn.
    split; [by eapply readCredential_normal|]. split; [done|].
    split; [|split; [done|split; [done|by apply read_allowlist_normal]]].
    repeat split; try (by apply Hnum). by apply or_else_nonempty.
  - intros [= <- <-]. cbn.
    split; [by eapply readCredential_normal|]. split; [done|].
    split; [|done].
    repeat split; try (by apply Hnum). by apply or_else_nonempty.
Qed.

Lemma loaded_config_is_complete_witness :
  ∃ ld, loadConfig example_platform
        = (Loaded ld, [AllowlistLoaded 1 DEFAULT_ALLOWLIST_PATH]) ∧
        deployReceiverToken (cfg_secrets (ld_config ld)) = lit "s3cret" ∧
        deployTimeoutMs (ld_config ld) ≠ 0%Z.
Proof.
  eexists. split; [reflexivity|]. split; [reflexivity|].
  eapply (loaded_config_is_complete example_platform). reflexivity.
Defined.

(** X19: the start of the server never goes on with an exception: it
    yields a configuration or exits with code 1, after a [FATAL] line or
    the allowlist error.  A credential that cannot be read ends it, and
    so does an allowlist file that is not a JSON array. *)
Theorem boot_exits_on_any_fault pf :
  let out := boot_server pf in
  (∀ message, fst out ≠ Failed message) ∧
  (∀ code, fst out = Exited code →
     code = 1%Z ∧
     ∃ message, snd out = [Fatal message] ∨
                snd out = [AllowlistFailed message]) ∧
  (∀ name message,
     name ∈ [lit "vaultwarden-master-password"; lit "ghcr-pat";
             lit "deploy-receiver-token"] →
     readCredential pf name = Throws message →
     fst out = Exited 1) ∧
  (fs_exists (pf_host pf) (allowlist_path pf) = true →
   ∀ raw value,
     readFileSync pf (allowlist_path pf) = Normal raw →
     JSON_parse pf raw = Normal value →
     (∀ items, value ≠ VArray items) →
     ∀ ld, fst out ≠ Loaded ld).
Proof.
  intros out. subst out. unfold boot_server, loadConfig, allowlist_path.
  destruct (readCredential pf (lit "vaultwarden-master-password"))
    as [v|mv] eqn:Hv;
  [destruct (readCredential pf (lit "ghcr-pat")) as [g|mg] eqn:Hg;
   [destruct (readCredential pf (lit "deploy-receiver-token"))
      as [k|mk] eqn:Hk|]|].
  2-4: cbn [fst snd app]; (split; [done|]); (split; [|split; [done|]]);
       [intros code [= <-]; split; [done|]; eexists; by left
       |intros _ raw value _ _ _ ld' [=]].
  destruct (fs_exists (pf_host pf)
              (env_or pf "DEPLOY_ALLOWLIST_PATH" DEFAULT_ALLOWLIST_PATH))
    eqn:Hex.
  - destruct (read_allowlist pf _) as [items|m] eqn:Hr; cbn [fst snd app].
    + split; [done|]. split; [done|]. split.
      * intros name message Hin Hthrow.
        repeat (apply elem_of_cons in Hin as [->|Hin]; [congruence|]).
        by apply elem_of_nil in Hin.
      * intros _ raw value Hraw Hparse Hne ld' _.
        apply read_allowlist_normal in Hr as (raw' & Hraw' & Hparse').
        rewrite Hraw in Hraw'. injection Hraw' as <-.
        rewrite Hparse in Hparse'. injection Hparse' as ->.
        by apply (Hne items).
    + split; [done|]. split; [|split; [done|]].
      * intros code [= <-]. split; [done|]. eexists; by right.
      * intros _ raw value _ _ _ ld' [=].
  - cbn [fst snd app]. split; [done|]. split; [done|]. split; [|done].
    intros name message Hin Hthrow.
    repeat (apply elem_of_cons in Hin as [->|Hin]; [congruence|]).
    by apply elem_of_nil in Hin.
Qed.

Lemma boot_exits_on_any_fault_witness :
  boot_server object_platform
  = (Exited 1,
     [AllowlistFailed (lit "Allowlist must be a JSON array of repo slugs")]).
Proof.
  pose proof (boot_exits_on_any_fault object_platform) as (_ & _ & _ & H).
  specialize (H eq_refl _ _ eq_refl eq_refl ltac:(discriminate)).
  reflexivity.
Defined.

(** X20: a token file that holds nothing but white space gives an empty
    token, and the server so configured answers every request 401. *)
Theorem blank_token_file_locks_everyone_out pf ld notices content :
  loadConfig pf = (Loaded ld, notices) →
  readFileSync pf (credential_path pf (lit "deploy-receiver-token"))
  = Normal content →
  forallb is_space content = true →
  ∀ h req s,
    deploy_begin h (ld_config ld) req s
    = (Reply (error_response 401 (lit "Unauthorized")), s).
Proof.
  intros Hload Hread Hblank h req s.
  apply deploy_begin_unauthorized, authorized_empty_secret.
  unfold loadConfig in Hload.
  destruct (readCredential pf (lit "vaultwarden-master-password"))
    as [v|]; [|done].
  destruct (readCredential pf (lit "ghcr-pat")) as [g|]; [|done].
  destruct (readCredential pf (lit "deploy-receiver-token"))
    as [k|] eqn:Hk; [|done].
  assert (k = []) as ->.
  { unfold readCredential in Hk. fold (credential_path pf
      (lit "deploy-receiver-token")) in Hk.
    destruct (falsy_opt _); [done|].
    destruct (negb _); [done|]. rewrite Hread in Hk. cbn in Hk.
    injection Hk as <-. by apply trim_all_space. }
  destruct (fs_exists _ _); [destruct (read_allowlist _ _); [|done]|];
    by injection Hload as <- _.
Qed.

Lemma blank_token_file_locks_everyone_out_witness :
  ∃ ld notices,
    loadConfig blank_platform = (Loaded ld, notices) ∧
    deploy_begin example_host (ld_config ld)
      (example_request (VString (lit "  "))
         (example_body "sporty" "ghcr.io/tihlde/sporty" "latest"))
      (fresh ∅)
    = (Reply (error_response 401 (lit "Unauthorized")), fresh ∅).
Proof.
  eexists _, _. split; [reflexivity|].
  eapply (blank_token_file_locks_everyone_out blank_platform);
    reflexivity.
Defined.
